(** * YiVal experiment runner: a shallow embedding of
      [src/yival/experiment/experiment_runner.py]

    The runner evaluates every data point against every variation
    combination, either on an asyncio event loop (tasks admitted through
    [asyncio.Semaphore(20)], retried after a fixed sleep) or on a
    [ThreadPoolExecutor].  The coroutines are embedded as step functions
    over an explicit scheduler state; a run is the execution of a list of
    scheduling choices, so that "every interleaving" is "every list of
    choices". *)

From Stdlib Require Import ZArith Lia.
From stdpp Require Import base option list strings gmap.

Open Scope Z_scope.
Open Scope nat_scope.

(** ** Python results: a value or a raised exception *)

Inductive exn :=
| ThroughputLimitExceeded
| EvaluationFailure
| TypeError
| OSError                    (* [open] on a directory *)
| UnpicklingError            (* [pickle.load] on what is not a pickle *)
| PicklingError              (* [pickle.dump] on what cannot be pickled *)
| RuntimeError.

Inductive py (A : Type) :=
| Raise (e : exn)
| Return (a : A).
Arguments Raise {A} e.
Arguments Return {A} a.

Definition py_bind {A B} (m : py A) (k : A → py B) : py B :=
  match m with
  | Raise e => Raise e
  | Return a => k a
  end.

Notation "'do' x <- m ; k" := (py_bind m (λ x, k))
  (at level 10, x name, m at level 100, k at level 200).

Definition is_return {A} (m : py A) : bool :=
  match m with Return _ => true | Raise _ => false end.

(** Truth value of a Python list: [if results:] *)
Definition truthy {A} (l : list A) : bool :=
  match l with [] => false | _ :: _ => true end.

(** ** Task executor *)

Section Executor.
Variables Datum Variation Output : Type.

(** [ExperimentResult] of [schemas/experiment_config.py], restricted to the
    fields the runner reads or that identify the result. *)
Record ExperimentResult := mk_result {
  input_data : Datum;
  combination : Variation;
  raw_output : Output;
  token_usage : Z;
}.

(** The (datum, variation) pair a result belongs to. *)
Definition key (r : ExperimentResult) : Datum * Variation :=
  (input_data r, combination r).

(** The external evaluation engine: what evaluating datum [d] against one
    combination yields on the [n]-th attempt of the task. *)
Variable engine : Datum → nat → Variation → py (Output * Z).

(** Modelled from the spec: [run_single_input] and [arun_single_input] live in
    [experiment/utils.py], which is not among the sources.  Section 4.3:
    the executor invokes the evaluation engine once per variation for the
    task's datum, producing one result per variation; a failure of the engine
    is signalled to the caller. *)
Fixpoint run_single_input (attempt : nat) (d : Datum)
    (all_combinations : list Variation) : py (list ExperimentResult) :=
  match all_combinations with
  | [] => Return []
  | c :: cs =>
      do out <- engine d attempt c;
      do rs <- run_single_input attempt d cs;
      Return (mk_result d c out.1 out.2 :: rs)
  end.

Definition arun_single_input := run_single_input.

(** [aparallel_task]: the body of the [for] loop returns on its first
    iteration; with no combination the loop body never runs and the
    coroutine falls off its end, returning [None]. *)
Definition aparallel_task (attempt : nat) (data_point : Datum)
    (all_combinations : list Variation) : py (option (list ExperimentResult)) :=
  match all_combinations with
  | [] => Return None
  | _ :: _ =>
      do rs <- arun_single_input attempt data_point all_combinations;
      Return (Some rs)
  end.

(** [parallel_task]: what the work item returns, the whole task attempted
    once; its call [RateLimiter(30 / 60)()] is a step of [worker] below. *)
Definition parallel_task (data_point : Datum)
    (all_combinations : list Variation) : py (list ExperimentResult) :=
  run_single_input 0 data_point all_combinations.

End Executor.

Arguments mk_result {Datum Variation Output}.
Arguments input_data {Datum Variation Output}.
Arguments combination {Datum Variation Output}.
Arguments raw_output {Datum Variation Output}.
Arguments token_usage {Datum Variation Output}.
Arguments key {Datum Variation Output}.
Arguments run_single_input {Datum Variation Output}.
Arguments arun_single_input {Datum Variation Output}.
Arguments aparallel_task {Datum Variation Output}.
Arguments parallel_task {Datum Variation Output}.

(** What the event loop, the rate limiter and the console observe. *)
Inductive event :=
| EvAcquire (i : nat)                 (* [async with semaphore] entered *)
| EvRelease (i : nat)                 (* [async with semaphore] left *)
| EvRateWait (i : nat)                (* [rate_limiter.wait()] completed *)
| EvCall (i attempt : nat)            (* [aparallel_task] completed *)
| EvAddTokens (i : nat) (n : Z)       (* [rate_limiter.add_tokens(n)] *)
| EvPrint (i : nat) (msg : string)
| EvSleep (i : nat) (seconds : nat).  (* [asyncio.sleep] completed *)

(** A scheduling choice of the event loop: resume the coroutine of task [i]
    at the await it is suspended on, or let the main coroutine take the next
    finished future out of [asyncio.as_completed]. *)
Inductive action :=
| Resume (i : nat)
| Collect.

(** Number of events of a run that satisfy [p]. *)
Definition tally (p : event → bool) (tr : list event) : nat :=
  sum_list_with (λ ev, if p ev then 1 else 0) tr.

Definition is_acquire (i : nat) (ev : event) : bool :=
  match ev with EvAcquire j => bool_decide (j = i) | _ => false end.

Definition is_release (i : nat) (ev : event) : bool :=
  match ev with EvRelease j => bool_decide (j = i) | _ => false end.

Definition is_rate_wait (i : nat) (ev : event) : bool :=
  match ev with EvRateWait j => bool_decide (j = i) | _ => false end.

Definition is_call (i : nat) (ev : event) : bool :=
  match ev with EvCall j _ => bool_decide (j = i) | _ => false end.

Definition is_add_tokens (ev : event) : bool :=
  match ev with EvAddTokens _ _ => true | _ => false end.

Definition is_sleep (i seconds : nat) (ev : event) : bool :=
  match ev with
  | EvSleep j n => bool_decide (j = i) && bool_decide (n = seconds)
  | _ => false
  end.

Definition is_backoff (i : nat) (ev : event) : bool :=
  match ev with EvSleep j _ => bool_decide (j = i) | _ => false end.

(** Engines and rate limiters used in the scenarios: data points and
    combinations are numbers, every evaluation costs 7 tokens. *)
Definition steady_engine (d attempt c : nat) : py (nat * Z) :=
  Return (d + c, 7%Z).

(** Raises [e] on the first [k] attempts of every task. *)
Definition flaky_engine (e : exn) (k : nat) (d attempt c : nat) : py (nat * Z) :=
  if attempt <? k then Raise e else Return (d + c, 7%Z).

Definition wait_returns (d attempt : nat) : option exn := None.

Section Runner.
Context {Datum Variation Output : Type}.
#[local] Abbreviation ER := (ExperimentResult Datum Variation Output).

Variable engine : Datum → nat → Variation → py (Output * Z).

(** [common.RateLimiter.wait] is not among the sources: [None] when the
    awaited call returns, [Some e] when it raises [e]. *)
Variable rate_limiter_wait : Datum → nat → option exn.

Variable all_combinations : list Variation.

(** ** Cooperative scheduler: [_aprocess_dataset] *)

(** The await a coroutine [eval_fn_with_semaphore(data_point)] is suspended
    on, or the outcome of its finished future. *)
Inductive pc :=
| Pending                            (* scheduled, not yet inside the semaphore *)
| Waiting                            (* in [await rate_limiter.wait()] *)
| Calling                            (* in [await self.aparallel_task(...)] *)
| Sleeping                           (* in [await asyncio.sleep(100)] *)
| Done (r : py (option (list ER))).

Record task := mk_task {
  data_point : Datum;
  at_pc : pc;
  failed : nat;                      (* attempts that ended in the handler *)
}.

Record state := mk_state {
  sem : nat;                         (* free slots of [asyncio.Semaphore(20)] *)
  tasks : list task;                 (* [futures], in submission order *)
  queue : list nat;                  (* finished, not yet yielded by [as_completed] *)
  consumed : list nat;               (* futures the main loop has awaited *)
  results : list ER;                 (* the list [results] shared with the closure *)
  raised : option exn;               (* the main coroutine raised *)
  pbar : list (nat * nat);           (* (n, total) shown by [tqdm] *)
  trace : list event;
}.

Definition holds_slot (t : task) : bool :=
  match at_pc t with
  | Waiting | Calling | Sleeping => true
  | Pending | Done _ => false
  end.

Definition slot (t : task) : nat := if holds_slot t then 1 else 0.

(** Number of tasks inside [async with semaphore]. *)
Definition in_section (s : state) : nat := sum_list_with slot (tasks s).

Definition log (evs : list event) (s : state) : state :=
  mk_state (sem s) (tasks s) (queue s) (consumed s) (results s) (raised s)
           (pbar s) (trace s ++ evs).

Definition set_task (i : nat) (t : task) (s : state) : state :=
  mk_state (sem s) (<[i:=t]> (tasks s)) (queue s) (consumed s) (results s)
           (raised s) (pbar s) (trace s).

(** Leaving [async with semaphore]: the slot goes back and the future of
    task [i] is finished with [r]. *)
Definition finish (i : nat) (t : task) (r : py (option (list ER)))
    (s : state) : state :=
  mk_state (S (sem s)) (<[i:=mk_task (data_point t) (Done r) (failed t)]> (tasks s))
           (queue s ++ [i]) (consumed s) (results s) (raised s) (pbar s)
           (trace s ++ [EvRelease i]).

(** The [try] block of [eval_fn_with_semaphore].  The name tested by
    [if results:] is the list [results] of the enclosing [_aprocess_dataset];
    the task's own value is bound to [resutls].  Returns the value of
    [return resutls] with the arguments of the [add_tokens] calls made. *)
Definition try_block (results : list ER) (t : task)
    : py (option (list ER) * list Z) :=
  do resutls <- aparallel_task engine (failed t) (data_point t) all_combinations;
  if truthy results then
    match resutls with
    | None => Raise TypeError            (* [for result in None] *)
    | Some rs => Return (resutls, token_usage <$> rs)
    end
  else Return (resutls, []).

Definition is_pending (t : task) : bool :=
  match at_pc t with Pending => true | _ => false end.

(** Every coroutine created before that of task [i] has gone past
    [semaphore.acquire()].  The event loop starts the coroutines in the order
    of their [ensure_future] calls and [asyncio.Semaphore] wakes its waiters
    first come, first served: the next task to enter is the first one still
    outside. *)
Definition first_in_line (i : nat) (s : state) : bool :=
  forallb (λ t, negb (is_pending t)) (take i (tasks s)).

(** One resumption of the coroutine [eval_fn_with_semaphore] of task [i].
    The coroutines do not depend on the main coroutine: they are resumed in
    the same way after it has raised.  (Under [asyncio.run] they are then
    cancelled first; a task suspended in its [try] block swallows that in
    the bare [except:] and goes on.  Cancellation is not in the source and is
    not part of the model.) *)
Definition eval_fn_with_semaphore (i : nat) (s : state) : option state :=
  match tasks s !! i with
  | Some t =>
      match at_pc t with
      | Pending =>
          match sem s with
          | 0 => None
          | S n =>
              if first_in_line i s then
                Some (log [EvAcquire i]
                       (mk_state n (<[i:=mk_task (data_point t) Waiting (failed t)]> (tasks s))
                          (queue s) (consumed s) (results s) (raised s) (pbar s) (trace s)))
              else None
          end
      | Waiting =>
          match rate_limiter_wait (data_point t) (failed t) with
          | Some e => Some (finish i t (Raise e) s)
          | None =>
              Some (log [EvRateWait i]
                     (set_task i (mk_task (data_point t) Calling (failed t)) s))
          end
      | Calling =>
          match try_block (results s) t with
          | Return (resutls, costs) =>
              Some (finish i t (Return resutls)
                     (log (EvCall i (failed t) :: (EvAddTokens i <$> costs)) s))
          | Raise _ =>
              Some (log [EvCall i (failed t);
                         EvPrint i "Rate limit exceeded, sleeping..."]
                     (set_task i (mk_task (data_point t) Sleeping (S (failed t))) s))
          end
      | Sleeping =>
          Some (log [EvSleep i 100]
                 (set_task i (mk_task (data_point t) Waiting (failed t)) s))
      | Done _ => None
      end
  | None => None
  end.

(** One iteration of [for future in tqdm(as_completed(futures), total=...)]:
    [results.extend(await future)]. *)
Definition extend (total : nat) (s : state) : option state :=
  match raised s, queue s with
  | None, i :: q =>
      match at_pc <$> tasks s !! i with
      | Some (Done (Return (Some rs))) =>
          Some (mk_state (sem s) (tasks s) q (consumed s ++ [i])
                  (results s ++ rs) None
                  (pbar s ++ [(S (length (consumed s)), total)]) (trace s))
      | Some (Done (Return None)) =>
          Some (mk_state (sem s) (tasks s) q (consumed s ++ [i])
                  (results s) (Some TypeError) (pbar s) (trace s))
      | Some (Done (Raise e)) =>
          Some (mk_state (sem s) (tasks s) q (consumed s ++ [i])
                  (results s) (Some e) (pbar s) (trace s))
      | _ => None
      end
  | _, _ => None
  end.

Definition step (total : nat) (a : action) (s : state) : option state :=
  match a with
  | Resume i => eval_fn_with_semaphore i s
  | Collect => extend total s
  end.

Fixpoint exec (total : nat) (acts : list action) (s : state) : option state :=
  match acts with
  | [] => Some s
  | a :: acts' =>
      match step total a s with
      | Some s' => exec total acts' s'
      | None => None
      end
  end.

(** The futures created by the two nested [for] loops over the batches. *)
Definition spawn (data_batches : list (list Datum)) : list task :=
  (λ d, mk_task d Pending 0) <$> concat data_batches.

(** [_aprocess_dataset] up to the scheduling choices of the event loop.
    [unused] is the value of the expression statement on line 62 and [total]
    the value handed to [tqdm]. *)
Definition aprocess_with (unused total : nat) (data_batches : list (list Datum))
    (acts : list action) : option state :=
  let semaphore := 20 in
  exec total acts (mk_state semaphore (spawn data_batches) [] [] [] None [] []).

Definition _aprocess_dataset (data_batches : list (list Datum))
    (acts : list action) : option state :=
  let unused := sum_list (length <$> data_batches) * length all_combinations in
  let total_tasks := sum_list (length <$> data_batches) * length all_combinations in
  aprocess_with unused total_tasks data_batches acts.

(** [return results]: the loop has consumed every future and nothing was
    raised. *)
Definition returned (s : state) : option (list ER) :=
  match raised s with
  | Some _ => None
  | None =>
      if decide (length (consumed s) = length (tasks s))
      then Some (results s) else None
  end.

(** ** Thread-pool scheduler: [_process_dataset] *)

(** [ThreadPoolExecutor()] is built without [max_workers]; the pool size is
    whatever the interpreter picks. *)
Variable max_workers : nat.

(** Where the work item [parallel_task(data, ...)] of a batch stands. *)
Inductive wpc :=
| Queued                             (* submitted by [executor.map] *)
| Limiting                           (* a worker is in [RateLimiter(30 / 60)()] *)
| Running                            (* a worker is in [run_single_input] *)
| Finished (r : py (list ER)).

Record job := mk_job {
  job_data : Datum;
  job_pc : wpc;
}.

Definition busy (j : job) : nat :=
  match job_pc j with
  | Limiting | Running => 1
  | Queued | Finished _ => 0
  end.

Record pool := mk_pool {
  jobs : list job;
  draws : list nat;                  (* work items that called the rate limiter *)
}.

(** One step of the worker thread that runs work item [i]; a queued item is
    taken only by a free worker. *)
Definition worker (i : nat) (p : pool) : option pool :=
  match jobs p !! i with
  | Some j =>
      match job_pc j with
      | Queued =>
          if decide (sum_list_with busy (jobs p) < max_workers)
          then Some (mk_pool (<[i:=mk_job (job_data j) Limiting]> (jobs p)) (draws p))
          else None
      | Limiting =>
          Some (mk_pool (<[i:=mk_job (job_data j) Running]> (jobs p)) (draws p ++ [i]))
      | Running =>
          Some (mk_pool
                  (<[i:=mk_job (job_data j)
                          (Finished (parallel_task engine (job_data j) all_combinations))]>
                     (jobs p))
                  (draws p))
      | Finished _ => None
      end
  | None => None
  end.

Fixpoint pool_exec (ws : list nat) (p : pool) : option pool :=
  match ws with
  | [] => Some p
  | i :: ws' =>
      match worker i p with
      | Some p' => pool_exec ws' p'
      | None => None
      end
  end.

Definition submit (data : list Datum) : pool :=
  mk_pool ((λ d, mk_job d Queued) <$> data) [].

(** [for res in executor.map(self.parallel_task, data, ...)]: the results come
    in submission order and the first exception met is re-raised.  The
    accumulator is [results] with the increments given to [pbar.update]. *)
Fixpoint executor_map (data : list Datum) (acc : list ER * list nat)
    : py (list ER * list nat) :=
  match data with
  | [] => Return acc
  | d :: data' =>
      do res <- parallel_task engine d all_combinations;
      executor_map data' (acc.1 ++ res, acc.2 ++ [length res])
  end.

Fixpoint process_batches (data_points : list (list Datum))
    (acc : list ER * list nat) : py (list ER * list nat) :=
  match data_points with
  | [] => Return acc
  | data :: rest =>
      do acc' <- executor_map data acc;
      process_batches rest acc'
  end.

Definition _process_dataset (data_points : list (list Datum)) : py (list ER) :=
  do acc <- process_batches data_points ([], []);
  Return acc.1.

(** ** [run] *)

(** [Experiment] of [schemas/experiment_config.py] and the collaborators that
    build, refine, store and show it are not among the sources; they are
    taken as given, each with the exceptions it may raise.  So is what
    [asyncio.run(self._aprocess_dataset(...))] gives back, which depends on
    the choices of the event loop and on how the loop is torn down after the
    coroutine has returned or raised: [run] is studied for every outcome of
    it. *)
Context {Experiment : Type}.


                                                 (* [display_results_dash] was called *)












(** ** Vocabulary of the properties *)

(** The free slots and the tasks inside the section add up to the initial
    value of the semaphore, and a task has entered the section once more than
    it has left it exactly while it is inside. *)
Definition slots_inv (n : nat) (s : state) : Prop :=
  sem s + in_section s = n ∧
  ∀ i t, tasks s !! i = Some t →
    tally (is_acquire i) (trace s) = tally (is_release i) (trace s) + slot t.

(** The (datum, variation) pairs of a run, in submission order. *)
Definition pairs (data_batches : list (list Datum)) : list (Datum * Variation) :=
  concat ((λ d, pair d <$> all_combinations) <$> concat data_batches).

(** What a finished future carries into [results]. *)
Definition batch (t : task) : list ER :=
  match at_pc t with
  | Done (Return (Some rs)) => rs
  | _ => []
  end.

Definition batch_of (ts : list task) (i : nat) : list ER :=
  match ts !! i with
  | Some t => batch t
  | None => []
  end.

Definition is_done (t : task) : bool :=
  match at_pc t with Done _ => true | _ => false end.

(** The futures handed out by [as_completed] are the finished ones, each
    once; [results] is made of the whole batches of the consumed ones; a
    batch is what the successful attempt of its task returned. *)
Record book_inv (s : state) : Prop := mk_book_inv {
  book_nodup : NoDup (consumed s ++ queue s);
  book_done : ∀ i, i ∈ consumed s ++ queue s ↔
                ∃ t, tasks s !! i = Some t ∧ is_done t = true;
  book_consumed : raised s = None →
                ∀ i, i ∈ consumed s →
                  ∃ t rs, tasks s !! i = Some t ∧ at_pc t = Done (Return (Some rs));
  book_results : raised s = None →
                results s = concat (batch_of (tasks s) <$> consumed s);
  book_batch : ∀ i t rs, tasks s !! i = Some t →
                at_pc t = Done (Return (Some rs)) →
                all_combinations ≠ [] ∧
                run_single_input engine (failed t) (data_point t) all_combinations
                  = Return rs;
}.

(** Resumptions a task still needs when the attempts from [bound d] on
    succeed, and the steps a run still needs. *)
Definition remaining (bound : Datum → nat) (t : task) : nat :=
  let retries := 3 * (bound (data_point t) - failed t) in
  match at_pc t with
  | Pending | Sleeping => retries + 3
  | Waiting => retries + 2
  | Calling => retries + 1
  | Done _ => 0
  end.

Definition steps_left (bound : Datum → nat) (s : state) : nat :=
  sum_list_with (remaining bound) (tasks s)
  + (length (tasks s) - length (consumed s)).

(** Every finished future carries a list. *)
Definition futures_ok (s : state) : Prop :=
  ∀ i t r, tasks s !! i = Some t → at_pc t = Done r → ∃ rs, r = Return (Some rs).

Definition is_sleeping (t : task) : bool :=
  match at_pc t with Sleeping => true | _ => false end.

Definition has_returned (t : task) : bool :=
  match at_pc t with Done (Return _) => true | _ => false end.

(** What the trace says about one task: it left the semaphore once if its
    future is finished and never otherwise; it has slept once, for 100
    seconds, after each attempt that failed (the last of these sleeps may
    still be going on); it has called [aparallel_task] once per failed
    attempt and once more if it returned. *)
Definition trace_inv (s : state) : Prop :=
  ∀ i t, tasks s !! i = Some t →
    tally (is_release i) (trace s) = (if is_done t then 1 else 0) ∧
    tally (is_sleep i 100) (trace s) + (if is_sleeping t then 1 else 0) = failed t ∧
    tally (is_backoff i) (trace s) = tally (is_sleep i 100) (trace s) ∧
    tally (is_call i) (trace s) = failed t + (if has_returned t then 1 else 0).

(** The busy workers fit in the pool, and a finished work item carries what
    [parallel_task] returns for its data point. *)
Definition pool_inv (p : pool) : Prop :=
  sum_list_with busy (jobs p) ≤ max_workers ∧
  ∀ i j r, jobs p !! i = Some j → job_pc j = Finished r →
    r = parallel_task engine (job_data j) all_combinations.

(** A finished future carries the exception of [rate_limiter.wait] or the
    value of the last call of [aparallel_task]. *)
Definition outcome_inv (s : state) : Prop :=
  ∀ i t r, tasks s !! i = Some t → at_pc t = Done r →
    match r with
    | Raise e => rate_limiter_wait (data_point t) (failed t) = Some e
    | Return resutls =>
        aparallel_task engine (failed t) (data_point t) all_combinations
          = Return resutls
    end.

(** A state without its progress bar. *)
Definition core (s : state) : state :=
  mk_state (sem s) (tasks s) (queue s) (consumed s) (results s) (raised s) []
           (trace s).



(** ** Vocabulary of the further properties *)

(** The arguments of the [add_tokens] calls of task [i], in order. *)
Definition tokens_of (i : nat) (tr : list event) : list Z :=
  omap (λ ev, match ev with
              | EvAddTokens j n => if bool_decide (j = i) then Some n else None
              | _ => None
              end) tr.

(** The tasks in the order in which they left the semaphore. *)
Definition released (tr : list event) : list nat :=
  omap (λ ev, match ev with EvRelease i => Some i | _ => None end) tr.

Definition is_calling (t : task) : bool :=
  match at_pc t with Calling => true | _ => false end.

(** What the progress bar has shown after [k] iterations of the main loop. *)
Definition bar (total k : nat) : list (nat * nat) :=
  (λ n, (n, total)) <$> seq 1 k.

(** The bar has advanced once per future merged, and shows the same total
    each time. *)
Definition pbar_inv (total : nat) (s : state) : Prop :=
  pbar s = bar total (length (pbar s)) ∧
  length (pbar s) + (match raised s with Some _ => 1 | None => 0 end)
    = length (consumed s).

(** One completed [rate_limiter.wait()] per call of [aparallel_task], the
    next call included when the task is about to make it. *)
Definition rate_inv (s : state) : Prop :=
  ∀ i t, tasks s !! i = Some t →
    tally (is_rate_wait i) (trace s) =
    tally (is_call i) (trace s) + (if is_calling t then 1 else 0).

(** A task has reported nothing, or the cost of each result it returned. *)
Definition cost_inv (s : state) : Prop :=
  ∀ i t, tasks s !! i = Some t →
    tokens_of i (trace s) = [] ∨
    ∃ rs, at_pc t = Done (Return (Some rs)) ∧
      tokens_of i (trace s) = token_usage <$> rs.

(** The futures were finished in the order in which the main loop takes
    them. *)
Definition order_inv (s : state) : Prop :=
  released (trace s) = consumed s ++ queue s.




(** Nothing has finished and the main loop has merged nothing. *)
Definition nothing_done (s : state) : Prop :=
  raised s = None ∧ queue s = [] ∧ consumed s = [] ∧ results s = [] ∧
  ∀ i t, tasks s !! i = Some t → is_done t = false.

(** * Properties *)

(** ** Runs and invariants *)

Lemma tally_app p tr1 tr2 : tally p (tr1 ++ tr2) = tally p tr1 + tally p tr2.
Proof. apply sum_list_with_app. Qed.

Lemma sum_list_with_insert {A} (f : A → nat) (l : list A) i x y :
  l !! i = Some x →
  sum_list_with f (<[i:=y]> l) + f x = sum_list_with f l + f y.
Proof.
  revert i. induction l as [|a l IH]; intros [|i] Hi; simplify_eq/=.
  - lia.
  - specialize (IH _ Hi). lia.
Qed.

Lemma exec_app total acts1 acts2 s :
  exec total (acts1 ++ acts2) s =
  match exec total acts1 s with
  | Some s' => exec total acts2 s'
  | None => None
  end.
Proof.
  revert s. induction acts1 as [|a acts1 IH]; intros s; simpl; [done|].
  destruct (step total a s); [apply IH | done].
Qed.

(** A property kept by every step holds all along a run. *)
Lemma exec_invariant (P : state → Prop) total :
  (∀ a s s', P s → step total a s = Some s' → P s') →
  ∀ acts s s', P s → exec total acts s = Some s' → P s'.
Proof.
  intros Hstep acts. induction acts as [|a acts IH]; intros s s' Hs Hex.
  - by simplify_eq/=.
  - simpl in Hex. destruct (step total a s) as [s1|] eqn:Ha; [|done].
    eapply IH; [|done]. by eapply Hstep.
Qed.

Ltac step_inv H :=
  unfold step, eval_fn_with_semaphore, extend, finish, set_task, log in H;
  repeat case_match; simplify_eq/=.

(** ** The semaphore *)

Lemma tally_nil p : tally p [] = 0.
Proof. done. Qed.

Lemma tally_cons p ev tr : tally p (ev :: tr) = (if p ev then 1 else 0) + tally p tr.
Proof. done. Qed.

Lemma tally_fmap_add_tokens p j (l : list Z) :
  (∀ n, p (EvAddTokens j n) = false) → tally p (EvAddTokens j <$> l) = 0.
Proof.
  intros Hp. induction l as [|n l IH]; [done|].
  rewrite fmap_cons, tally_cons, Hp, IH. done.
Qed.

Ltac tally_simpl :=
  rewrite ?tally_app, ?tally_cons, ?tally_nil, ?tally_fmap_add_tokens by done;
  simpl.

Lemma slot_at t p : at_pc t = p → slot t = slot (mk_task (data_point t) p (failed t)).
Proof. intros <-. by destruct t. Qed.

(** How many slots the tasks hold once task [j] has moved from [t] to [t']. *)
Ltac slot_insert :=
  match goal with
  | Ht : tasks _ !! ?j = Some ?t, Hpc : at_pc ?t = _
    |- context [<[?j:=?t']> _] =>
      let Hsum := fresh "Hsum" in
      pose proof (sum_list_with_insert slot _ _ _ t' Ht) as Hsum;
      rewrite (slot_at _ _ Hpc) in Hsum;
      cbn [slot holds_slot at_pc] in Hsum
  end.

Lemma slots_inv_step n total a s s' :
  slots_inv n s → step total a s = Some s' → slots_inv n s'.
Proof.
  intros [Hsem Htr] Hstep. unfold in_section in *.
  destruct a as [j|]; step_inv Hstep.
  all: split; [unfold in_section; simpl; try done; slot_insert; lia|]; simpl; try done.
  all: intros i t0 Hi; destruct (decide (i = j)) as [->|Hne];
    [ rewrite list_lookup_insert_eq in Hi by (by eapply lookup_lt_Some)
    | rewrite list_lookup_insert_ne in Hi by done ];
    simplify_eq/=.
  all: tally_simpl.
  all: repeat case_bool_decide; simplify_eq/=.
  all: match goal with
    | Hl : tasks _ !! ?k = Some ?u |- context [tally (is_acquire ?k) _] =>
        specialize (Htr _ _ Hl)
    end.
  all: try match goal with
    | Hpc : at_pc ?t = _ |- _ => rewrite (slot_at _ _ Hpc) in Htr
    end.
  all: cbn [slot holds_slot at_pc] in *; lia.
Qed.

Lemma spawn_no_slot l : sum_list_with slot (spawn l) = 0.
Proof. unfold spawn. induction (concat l) as [|d ds IH]; [done|]. by rewrite fmap_cons. Qed.

Lemma slots_inv_init n l : slots_inv n (mk_state n (spawn l) [] [] [] None [] []).
Proof.
  split; simpl.
  - unfold in_section; simpl. rewrite spawn_no_slot. lia.
  - intros i t Hi. unfold spawn in Hi.
    apply list_lookup_fmap_Some in Hi as (d & -> & _). done.
Qed.

(** ** The futures and the result list *)

Lemma batch_of_insert_ne ts j t' i : i ≠ j → batch_of (<[j:=t']> ts) i = batch_of ts i.
Proof. intros Hne. unfold batch_of. by rewrite list_lookup_insert_ne. Qed.

Lemma not_done_not_handed s j t :
  book_inv s → tasks s !! j = Some t → is_done t = false →
  j ∉ consumed s ++ queue s.
Proof.
  intros Hb Hj Hnd Hin. apply (book_done _ Hb) in Hin as (t0 & Ht0 & Hd).
  congruence.
Qed.

(** A task that moves between two awaits leaves the books alone. *)
Lemma book_inv_move s j t t' n r pb tr :
  book_inv s → tasks s !! j = Some t → is_done t = false → is_done t' = false →
  raised s = r →
  book_inv (mk_state n (<[j:=t']> (tasks s)) (queue s) (consumed s) (results s)
              r pb tr).
Proof.
  intros Hb Hj Hnd Hnd' <-.
  pose proof (not_done_not_handed _ _ _ Hb Hj Hnd) as Hnotin.
  assert (Hlt : j < length (tasks s)) by (by eapply lookup_lt_Some).
  split; simpl.
  - apply Hb.
  - intros i. rewrite (book_done _ Hb). destruct (decide (i = j)) as [->|Hne].
    + rewrite list_lookup_insert_eq by done. split; intros (t0 & ? & ?); simplify_eq; congruence.
    + by rewrite list_lookup_insert_ne.
  - intros Hr i Hi.
    assert (i ≠ j) by (intros ->; apply Hnotin, elem_of_app; auto).
    rewrite list_lookup_insert_ne by done. by apply (book_consumed _ Hb).
  - intros Hr. rewrite (book_results _ Hb Hr). f_equal.
    apply list_fmap_ext. intros k i Hi. symmetry. apply batch_of_insert_ne.
    intros ->. apply Hnotin, elem_of_app. left. by eapply list_elem_of_lookup_2.
  - intros i t0 rs. destruct (decide (i = j)) as [->|Hne].
    + rewrite list_lookup_insert_eq by done. intros ? Hpc; simplify_eq.
      unfold is_done in Hnd'. by rewrite Hpc in Hnd'.
    + rewrite list_lookup_insert_ne by done. apply Hb.
Qed.

(** A task that returns or raises puts its future in the queue. *)
Lemma book_inv_finish s j t t' n r pb tr :
  book_inv s → tasks s !! j = Some t → is_done t = false → is_done t' = true →
  (∀ rs, at_pc t' = Done (Return (Some rs)) →
     all_combinations ≠ [] ∧
     run_single_input engine (failed t') (data_point t') all_combinations = Return rs) →
  raised s = r →
  book_inv (mk_state n (<[j:=t']> (tasks s)) (queue s ++ [j]) (consumed s) (results s)
              r pb tr).
Proof.
  intros Hb Hj Hnd Hd' Hrs <-.
  pose proof (not_done_not_handed _ _ _ Hb Hj Hnd) as Hnotin.
  assert (Hlt : j < length (tasks s)) by (by eapply lookup_lt_Some).
  split; simpl.
  - rewrite app_assoc. apply NoDup_app. split_and!; [apply Hb | | apply NoDup_singleton].
    intros i Hi ->%list_elem_of_singleton. done.
  - intros i. rewrite app_assoc, elem_of_app, (book_done _ Hb), list_elem_of_singleton.
    destruct (decide (i = j)) as [->|Hne].
    + rewrite list_lookup_insert_eq by done. split; [eauto | auto].
    + rewrite list_lookup_insert_ne by done. split; [intros [?|?]; [done|congruence] | auto].
  - intros Hr i Hi.
    assert (i ≠ j) by (intros ->; apply Hnotin, elem_of_app; auto).
    rewrite list_lookup_insert_ne by done. by apply (book_consumed _ Hb).
  - intros Hr. rewrite (book_results _ Hb Hr). f_equal.
    apply list_fmap_ext. intros k i Hi. symmetry. apply batch_of_insert_ne.
    intros ->. apply Hnotin, elem_of_app. left. by eapply list_elem_of_lookup_2.
  - intros i t0 rs. destruct (decide (i = j)) as [->|Hne].
    + rewrite list_lookup_insert_eq by done. intros ? Hpc; simplify_eq. by apply Hrs.
    + rewrite list_lookup_insert_ne by done. apply Hb.
Qed.

Lemma try_block_returns res t resutls costs :
  try_block res t = Return (resutls, costs) →
  aparallel_task engine (failed t) (data_point t) all_combinations = Return resutls.
Proof.
  unfold try_block, py_bind. intros H. repeat case_match; by simplify_eq.
Qed.

Lemma aparallel_task_some attempt d rs :
  aparallel_task engine attempt d all_combinations = Return (Some rs) →
  all_combinations ≠ [] ∧
  run_single_input engine attempt d all_combinations = Return rs.
Proof.
  unfold aparallel_task, arun_single_input, py_bind.
  destruct all_combinations as [|c cs] eqn:Hv; [done|].
  intros H. case_match; by simplify_eq.
Qed.

(** The main loop takes the oldest finished future; unless it raises, the
    whole batch of that future goes to the end of [results]. *)
Lemma book_inv_extend s i q t r res rz n pb tr :
  book_inv s → raised s = None → queue s = i :: q →
  tasks s !! i = Some t → at_pc t = Done r →
  (rz = None → ∃ rs, r = Return (Some rs) ∧ res = results s ++ rs) →
  book_inv (mk_state n (tasks s) q (consumed s ++ [i]) res rz pb tr).
Proof.
  intros Hb Hr Hq Hi Hpc Hres.
  assert (Heq : (consumed s ++ [i]) ++ q = consumed s ++ queue s)
    by (by rewrite Hq, <-app_assoc).
  split; simpl.
  - rewrite Heq. apply Hb.
  - intros k. rewrite Heq. apply Hb.
  - intros Hz k [Hk| ->%list_elem_of_singleton]%elem_of_app.
    + by apply (book_consumed _ Hb).
    + destruct (Hres Hz) as (rs & -> & _). eauto.
  - intros Hz. destruct (Hres Hz) as (rs & -> & ->).
    rewrite fmap_app, concat_app, (book_results _ Hb Hr). simpl.
    f_equal. unfold batch_of, batch. by rewrite Hi, Hpc, app_nil_r.
  - apply Hb.
Qed.

Lemma book_inv_step total a s s' :
  book_inv s → step total a s = Some s' → book_inv s'.
Proof.
  intros Hb Hstep. destruct a as [j|]; step_inv Hstep.
  all: try match goal with
    | Hpc : at_pc ?t = _ |- _ =>
        assert (is_done t = false) by (unfold is_done; by rewrite Hpc)
    end.
  all: try (by eapply book_inv_move).
  all: try (eapply book_inv_finish; [done..| |done]; simpl; intros rs ?; simplify_eq).
  - by eapply aparallel_task_some, try_block_returns.
  - destruct (tasks s !! n) as [t|] eqn:Ht; simplify_eq/=.
    eapply book_inv_extend; eauto. done.
  - destruct (tasks s !! n) as [t|] eqn:Ht; simplify_eq/=.
    eapply book_inv_extend; eauto.
  - destruct (tasks s !! n) as [t|] eqn:Ht; simplify_eq/=.
    eapply book_inv_extend; eauto. done.
Qed.

Lemma book_inv_init n l : book_inv (mk_state n (spawn l) [] [] [] None [] []).
Proof.
  split; simpl.
  - constructor.
  - intros i. split; [by intros ?%elem_of_nil|].
    intros (t & Ht & Hd). unfold spawn in Ht.
    by apply list_lookup_fmap_Some in Ht as (d & -> & _).
  - by intros _ i ?%elem_of_nil.
  - done.
  - intros i t rs Ht Hpc. unfold spawn in Ht.
    by apply list_lookup_fmap_Some in Ht as (d & -> & _).
Qed.

(** The data points of the futures never change. *)
Lemma step_data total a s s' :
  step total a s = Some s' → data_point <$> tasks s' = data_point <$> tasks s.
Proof.
  intros Hstep. destruct a as [j|]; step_inv Hstep; try done.
  all: rewrite list_fmap_insert; simpl; apply list_insert_id;
    match goal with
    | Ht : tasks _ !! _ = Some _ |- _ => by rewrite list_lookup_fmap, Ht
    end.
Qed.

Lemma exec_data total acts s s' :
  exec total acts s = Some s' → data_point <$> tasks s' = data_point <$> tasks s.
Proof.
  intros Hex.
  apply (exec_invariant (λ s', data_point <$> tasks s' = data_point <$> tasks s) total)
    with (acts := acts) (s := s); [|done..].
  intros a s1 s2 <- Hstep. by eapply step_data.
Qed.

Lemma exec_book total acts s s' :
  book_inv s → exec total acts s = Some s' → book_inv s'.
Proof. apply exec_invariant. intros a s1 s2. apply book_inv_step. Qed.

Lemma exec_slots n total acts s s' :
  slots_inv n s → exec total acts s = Some s' → slots_inv n s'.
Proof. apply exec_invariant. intros a s1 s2. apply slots_inv_step. Qed.

Lemma batch_of_seq ts : batch_of ts <$> seq 0 (length ts) = batch <$> ts.
Proof.
  apply list_eq. intros i. rewrite !list_lookup_fmap.
  destruct (decide (i < length ts)) as [Hlt|Hge].
  - rewrite lookup_seq_lt by done. simpl. unfold batch_of.
    destruct (lookup_lt_is_Some_2 ts i Hlt) as [t Ht]. by rewrite Ht.
  - rewrite lookup_seq_ge, lookup_ge_None_2 by lia. done.
Qed.

(** When the main loop is through and nothing was raised, it has consumed
    every future once. *)
Lemma returned_consumed s rs :
  book_inv s → returned s = Some rs →
  raised s = None ∧ rs = results s ∧ consumed s ≡ₚ seq 0 (length (tasks s)).
Proof.
  intros Hb Hret. unfold returned in Hret.
  destruct (raised s) eqn:Hr; [done|]. case_decide as Hlen; simplify_eq.
  split_and!; [done..|].
  apply submseteq_length_Permutation.
  - apply NoDup_submseteq.
    + pose proof (book_nodup _ Hb) as Hnd. by apply NoDup_app in Hnd as (? & _).
    + intros i Hi. destruct (book_consumed _ Hb Hr i Hi) as (t & r & Ht & _).
      apply elem_of_seq. split; [lia|]. simpl. by eapply lookup_lt_Some.
  - rewrite length_seq. lia.
Qed.

Lemma returned_results s rs :
  book_inv s → returned s = Some rs →
  rs ≡ₚ concat (batch <$> tasks s) ∧
  ∀ i t, tasks s !! i = Some t → ∃ rs', at_pc t = Done (Return (Some rs')).
Proof.
  intros Hb Hret. destruct (returned_consumed _ _ Hb Hret) as (Hr & -> & Hperm).
  split.
  - rewrite (book_results _ Hb Hr), Hperm, batch_of_seq. done.
  - intros i t Ht.
    assert (Hi : i ∈ consumed s).
    { rewrite Hperm. apply elem_of_seq. split; [lia|]. simpl. by eapply lookup_lt_Some. }
    destruct (book_consumed _ Hb Hr i Hi) as (t' & r & Ht' & Hpc). simplify_eq. eauto.
Qed.
(** ** One result per variation *)

Lemma run_single_input_keys attempt d (vs : list Variation) rs :
  run_single_input engine attempt d vs = Return rs →
  key <$> rs = pair d <$> vs.
Proof.
  revert rs. induction vs as [|c cs IH]; intros rs Hrun; simpl in Hrun.
  - by simplify_eq.
  - unfold py_bind in Hrun. repeat case_match; simplify_eq.
    rewrite !fmap_cons. f_equal. by apply IH.
Qed.

Lemma run_single_input_length attempt d (vs : list Variation) rs :
  run_single_input engine attempt d vs = Return rs → length rs = length vs.
Proof.
  intros Hrun%run_single_input_keys.
  by rewrite <-(length_fmap key rs), Hrun, length_fmap.
Qed.

Lemma length_pairs (l : list (list Datum)) :
  length (pairs l) = length (concat l) * length all_combinations.
Proof.
  unfold pairs. induction (concat l) as [|d ds IH]; [done|].
  rewrite fmap_cons; simpl. rewrite length_app, length_fmap, IH. done.
Qed.

Lemma spawn_data l : data_point <$> spawn l = concat l.
Proof.
  unfold spawn. rewrite <-list_fmap_compose. apply list_fmap_id.
Qed.

(** The keys of the batches of the futures, once all of them carry one. *)
Lemma batches_keys (ts : list task) :
  (∀ i t, ts !! i = Some t →
     ∃ rs, at_pc t = Done (Return (Some rs)) ∧
       run_single_input engine (failed t) (data_point t) all_combinations = Return rs) →
  key <$> concat (batch <$> ts) =
  concat ((λ d, pair d <$> all_combinations) <$> (data_point <$> ts)).
Proof.
  induction ts as [|t ts IH]; intros Hall; [done|].
  rewrite !fmap_cons; simpl. rewrite fmap_app. f_equal.
  - destruct (Hall 0 t eq_refl) as (rs & Hpc & Hrun).
    unfold batch. rewrite Hpc. by eapply run_single_input_keys.
  - apply IH. intros i t' Hi. by apply (Hall (S i)).
Qed.

Lemma aprocess_invariants unused total l acts s :
  aprocess_with unused total l acts = Some s →
  book_inv s ∧ slots_inv 20 s ∧ data_point <$> tasks s = concat l.
Proof.
  unfold aprocess_with. intros Hex. split_and!.
  - eapply exec_book; [|done]. apply book_inv_init.
  - eapply exec_slots; [|done]. apply slots_inv_init.
  - by rewrite (exec_data _ _ _ _ Hex), <-spawn_data.
Qed.

Lemma aprocess_returned unused total l acts s rs :
  aprocess_with unused total l acts = Some s → returned s = Some rs →
  key <$> rs ≡ₚ pairs l ∧
  length rs = length (concat l) * length all_combinations.
Proof.
  intros (Hb & _ & Hdata)%aprocess_invariants Hret.
  destruct (returned_results _ _ Hb Hret) as [Hperm Hall].
  assert (Hkeys : key <$> rs ≡ₚ pairs l).
  { rewrite Hperm, batches_keys.
    - unfold pairs. by rewrite Hdata.
    - intros i t Ht. destruct (Hall i t Ht) as [rs' Hpc]. exists rs'. split; [done|].
      by apply (book_batch _ Hb i). }
  split; [done|].
  by rewrite <-(length_fmap key rs), Hkeys, length_pairs.
Qed.
(** ** Progress of the cooperative run *)

Lemma find_task (P : task → bool) (ts : list task) :
  (∃ i t, ts !! i = Some t ∧ P t = true) ∨ (∀ i t, ts !! i = Some t → P t = false).
Proof.
  induction ts as [|t ts [(i & t' & Hi & HP)|IH]].
  - right. by intros i t ?.
  - left. by exists (S i), t'.
  - destruct (P t) eqn:HP.
    + left. by exists 0, t.
    + right. intros [|i] t' Hi; simplify_eq/=; eauto.
Qed.

(** The first task that satisfies [P], when there is one. *)
Lemma find_first_task (P : task → bool) (ts : list task) :
  (∃ i t, ts !! i = Some t ∧ P t = true ∧
     ∀ j t', j < i → ts !! j = Some t' → P t' = false)
  ∨ (∀ i t, ts !! i = Some t → P t = false).
Proof.
  induction ts as [|t ts IH].
  - right. by intros i t ?.
  - destruct (P t) eqn:HP.
    + left. exists 0, t. split_and!; [done..|]. intros j t' ?. lia.
    + destruct IH as [(i & t' & Hi & HPi & Hmin)|IH].
      * left. exists (S i), t'. split_and!; [done..|].
        intros [|j] u Hj Hu; simplify_eq/=; [done|].
        apply (Hmin j); [lia|done].
      * right. intros [|i] t' Hi; simplify_eq/=; eauto.
Qed.

Lemma first_in_line_spec i s :
  first_in_line i s = true ↔
  ∀ j t, j < i → tasks s !! j = Some t → is_pending t = false.
Proof.
  unfold first_in_line. rewrite forallb_forall. split.
  - intros Hall j t Hj Ht.
    apply negb_true_iff, Hall, list_elem_of_In, (list_elem_of_lookup_2 _ j).
    by rewrite lookup_take_lt.
  - intros Hall t [j Hj]%list_elem_of_In%list_elem_of_lookup_1.
    apply lookup_take_Some in Hj as [Hj Hlt].
    apply negb_true_iff. by eapply Hall.
Qed.

Lemma aparallel_task_given attempt (d : Datum) (vs : list Variation) :
  vs ≠ [] →
  aparallel_task engine attempt d vs =
  match run_single_input engine attempt d vs with
  | Raise e => Raise e
  | Return rs => Return (Some rs)
  end.
Proof. by destruct vs. Qed.

(** Unless the run has returned or raised, some coroutine can be resumed or
    a finished future merged, whatever the engine does. *)
Lemma step_enabled total s :
  book_inv s → slots_inv 20 s → raised s = None → returned s = None →
  ∃ a s', step total a s = Some s'.
Proof.
  intros Hb [Hsem _] Hr Hret.
  destruct (find_task holds_slot (tasks s)) as [(i & t & Hi & Hh)|Hnone].
  { exists (Resume i). simpl. unfold eval_fn_with_semaphore. rewrite Hi.
    unfold holds_slot in Hh. repeat case_match; eauto; done. }
  assert (Hfree : sem s = 20).
  { unfold in_section in Hsem. enough (sum_list_with slot (tasks s) = 0) by lia.
    clear -Hnone. induction (tasks s) as [|t ts IH]; [done|]. simpl.
    unfold slot at 1. rewrite (Hnone 0 t eq_refl), IH; [done|].
    intros i t' Hi. by apply (Hnone (S i)). }
  destruct (find_first_task is_pending (tasks s))
    as [(i & t & Hi & Hp & Hmin)|Hnp].
  { exists (Resume i). simpl. unfold eval_fn_with_semaphore. rewrite Hi, Hfree.
    unfold is_pending in Hp. destruct (at_pc t); try done.
    rewrite (proj2 (first_in_line_spec i s)) by done. eauto. }
  assert (Hall : ∀ i t, tasks s !! i = Some t → is_done t = true).
  { intros i t Ht. specialize (Hnone _ _ Ht). specialize (Hnp _ _ Ht).
    unfold holds_slot in Hnone. unfold is_pending in Hnp. unfold is_done.
    by destruct (at_pc t). }
  exists Collect. simpl. unfold extend. rewrite Hr.
  assert (Hperm : consumed s ++ queue s ≡ₚ seq 0 (length (tasks s))).
  { apply NoDup_Permutation; [apply Hb|apply NoDup_seq|].
    intros i. rewrite (book_done _ Hb), elem_of_seq. split.
    - intros (t & Ht & _). split; [lia|]. simpl. by eapply lookup_lt_Some.
    - intros [_ Hlt]. destruct (lookup_lt_is_Some_2 (tasks s) i Hlt) as [t Ht].
      exists t. split; [done|]. by eapply Hall. }
  apply Permutation_length in Hperm. rewrite length_app, length_seq in Hperm.
  unfold returned in Hret. rewrite Hr in Hret. case_decide; [done|].
  destruct (queue s) as [|i q] eqn:Hq; [simpl in Hperm; lia|].
  assert (Hi : i ∈ consumed s ++ queue s) by (rewrite Hq; set_solver).
  apply (book_done _ Hb) in Hi as (t & Ht & Hd). rewrite Ht. simpl.
  unfold is_done in Hd. repeat case_match; eauto; done.
Qed.

Section Progress.
Variable bound : Datum → nat.
Hypothesis combinations_given : all_combinations ≠ [].
Hypothesis wait_returns_always : ∀ d attempt, rate_limiter_wait d attempt = None.
Hypothesis succeeds_from_bound : ∀ d attempt,
  bound d ≤ attempt →
  is_return (run_single_input engine attempt d all_combinations) = true.

Lemma try_block_outcome res t :
  match try_block res t with
  | Return (resutls, _) => ∃ rs, resutls = Some rs
  | Raise _ => failed t < bound (data_point t)
  end.
Proof.
  unfold try_block. rewrite aparallel_task_given by done. unfold py_bind.
  destruct (run_single_input _ _ _ _) as [e|rs] eqn:Hrun.
  - destruct (decide (failed t < bound (data_point t))) as [|Hge]; [done|].
    pose proof (succeeds_from_bound (data_point t) (failed t)) as Hs.
    rewrite Hrun in Hs. assert (bound (data_point t) ≤ failed t) as Hle by lia.
    by specialize (Hs Hle).
  - destruct (truthy res); eauto.
Qed.

Lemma futures_ok_step total a s s' :
  futures_ok s → step total a s = Some s' → futures_ok s'.
Proof.
  intros Hok Hstep. destruct a as [j|]; step_inv Hstep; try exact Hok.
  all: intros i t0 r Hi Hpc; simpl in Hi.
  all: destruct (decide (i = j)) as [->|Hne];
    [ rewrite list_lookup_insert_eq in Hi by (by eapply lookup_lt_Some)
    | rewrite list_lookup_insert_ne in Hi by done; by eapply Hok ];
    simplify_eq/=.
  - by rewrite wait_returns_always in *.
  - pose proof (try_block_outcome (results s) t) as Hout.
    match goal with Htry : try_block _ _ = _ |- _ => rewrite Htry in Hout end.
    destruct Hout as [rs ->]. eauto.
Qed.

Lemma handed_bound s :
  book_inv s → length (consumed s) + length (queue s) ≤ length (tasks s).
Proof.
  intros Hb. rewrite <-length_app.
  replace (length (tasks s)) with (length (seq 0 (length (tasks s))))
    by apply length_seq.
  apply submseteq_length, NoDup_submseteq; [apply Hb|].
  intros i (t & Ht & _)%(book_done _ Hb).
  apply elem_of_seq. split; [lia|]. simpl. by eapply lookup_lt_Some.
Qed.

Lemma remaining_at t p :
  at_pc t = p → remaining bound t = remaining bound (mk_task (data_point t) p (failed t)).
Proof. intros <-. by destruct t. Qed.

(** Every step brings the run closer to its end, and none makes it raise. *)
Lemma step_decreases total a s s' :
  book_inv s → futures_ok s → raised s = None → step total a s = Some s' →
  raised s' = None ∧ steps_left bound s' < steps_left bound s.
Proof.
  intros Hb Hok Hr Hstep. pose proof (handed_bound _ Hb) as Hlen.
  unfold steps_left. destruct a as [j|]; step_inv Hstep.
  all: try match goal with
    | Ht : tasks _ !! ?j = Some ?t, Hpc : at_pc ?t = _
      |- context [<[?j:=?t']> _] =>
        pose proof (sum_list_with_insert (remaining bound) _ _ _ t' Ht) as Hsum;
        rewrite (remaining_at _ _ Hpc) in Hsum;
        cbn [remaining at_pc data_point failed] in Hsum;
        rewrite length_insert
    end.
  all: try (split; [done|lia]).
  - pose proof (try_block_outcome (results s) t) as Hout.
    match goal with Htry : try_block _ _ = _ |- _ => rewrite Htry in Hout end.
    split; [done|lia].
  - destruct (tasks s !! n) as [t|] eqn:Ht; simplify_eq/=.
    by destruct (Hok _ _ _ Ht H1).
  - rewrite length_app. simpl in *. split; [done|lia].
  - destruct (tasks s !! n) as [t|] eqn:Ht; simplify_eq/=.
    by destruct (Hok _ _ _ Ht H1).
Qed.

(** From a state where nothing was raised the run can always be brought to
    its [return]. *)
Lemma can_return total s :
  book_inv s → slots_inv 20 s → futures_ok s → raised s = None →
  ∃ acts s' rs, exec total acts s = Some s' ∧ returned s' = Some rs.
Proof.
  remember (steps_left bound s) as m eqn:Hm.
  revert s Hm. induction (lt_wf m) as [m _ IH]. intros s -> Hb Hs Hok Hr.
  destruct (returned s) as [rs|] eqn:Hret.
  { by exists [], s, rs. }
  destruct (step_enabled total s Hb Hs Hr Hret) as (a & s1 & Hstep).
  destruct (step_decreases _ _ _ _ Hb Hok Hr Hstep) as [Hr1 Hlt].
  destruct (IH _ Hlt s1 eq_refl) as (acts & s' & rs & Hex & Hret');
    [by eapply book_inv_step|by eapply slots_inv_step|by eapply futures_ok_step|done|].
  exists (a :: acts), s', rs. simpl. by rewrite Hstep.
Qed.

(** No run is longer than the steps its first state has left, and no run
    raises. *)
Lemma exec_bounded total acts s s' :
  book_inv s → futures_ok s → raised s = None → exec total acts s = Some s' →
  raised s' = None ∧ futures_ok s' ∧
  length acts + steps_left bound s' ≤ steps_left bound s.
Proof.
  revert s. induction acts as [|a acts IH]; intros s Hb Hok Hr Hex; simplify_eq/=.
  { split_and!; [done..|lia]. }
  destruct (step total a s) as [s1|] eqn:Hstep; [|done].
  destruct (step_decreases _ _ _ _ Hb Hok Hr Hstep) as [Hr1 Hlt].
  destruct (IH s1) as (? & ? & ?);
    [by eapply book_inv_step|by eapply futures_ok_step|done..|].
  split_and!; [done..|lia].
Qed.
End Progress.

Lemma futures_ok_init n l : futures_ok (mk_state n (spawn l) [] [] [] None [] []).
Proof.
  intros i t r Ht Hpc. unfold spawn in Ht; simpl in Ht.
  by apply list_lookup_fmap_Some in Ht as (d & -> & _).
Qed.

(** With no combination and at least one data point the run never returns. *)
Lemma no_return_without_combinations unused total l acts s :
  all_combinations = [] → concat l ≠ [] →
  aprocess_with unused total l acts = Some s → returned s = None.
Proof.
  intros Hv Hl Hex. destruct (aprocess_invariants _ _ _ _ _ Hex) as (Hb & _ & Hdata).
  destruct (returned s) as [rs|] eqn:Hret; [|done].
  destruct (returned_results _ _ Hb Hret) as [_ Hall].
  destruct (tasks s) as [|t ts] eqn:Hts.
  { by simplify_eq/=. }
  destruct (Hall 0 t) as [rs' Hpc]; [done|].
  destruct (book_batch _ Hb 0 t rs') as [? _]; [by rewrite Hts|done..].
Qed.

(** With no data point there is no future, and the run returns at once. *)
Lemma no_data_no_step unused total l acts s :
  concat l = [] → aprocess_with unused total l acts = Some s →
  acts = [] ∧ returned s = Some [].
Proof.
  unfold aprocess_with, spawn. intros ->. simpl.
  destruct acts as [|[i|] acts]; simpl; [by intros; simplify_eq|done..].
Qed.

(** ** What the trace records *)

Lemma trace_inv_step total a s s' :
  trace_inv s → step total a s = Some s' → trace_inv s'.
Proof.
  intros Htr Hstep. destruct a as [j|]; step_inv Hstep; try exact Htr.
  all: intros i t0 Hi; simpl in Hi; destruct (decide (i = j)) as [->|Hne];
    [ rewrite list_lookup_insert_eq in Hi by (by eapply lookup_lt_Some)
    | rewrite list_lookup_insert_ne in Hi by done ];
    simplify_eq/=.
  all: tally_simpl.
  all: repeat case_bool_decide; simplify_eq/=.
  all: match goal with
    | Hl : tasks _ !! ?k = Some ?u |- context [tally (is_release ?k) _] =>
        destruct (Htr _ _ Hl) as (Hrel & Hsl & Hbk & Hcall)
    end.
  all: unfold is_done, is_sleeping, has_returned in *; simpl.
  all: try match goal with
    | Hpc : at_pc ?t = _ |- _ => rewrite Hpc in *
    end.
  all: split_and!; lia.
Qed.

Lemma trace_inv_init n l : trace_inv (mk_state n (spawn l) [] [] [] None [] []).
Proof.
  intros i t Ht. unfold spawn in Ht; simpl in Ht.
  by apply list_lookup_fmap_Some in Ht as (d & -> & _).
Qed.

Lemma exec_trace total acts s s' :
  trace_inv s → exec total acts s = Some s' → trace_inv s'.
Proof. apply exec_invariant. intros a s1 s2. apply trace_inv_step. Qed.
(** ** The thread pool *)

Lemma busy_at j p : job_pc j = p → busy j = busy (mk_job (job_data j) p).
Proof. intros <-. by destruct j. Qed.

Lemma pool_inv_step i p p' : pool_inv p → worker i p = Some p' → pool_inv p'.
Proof.
  intros [Hbusy Hfin] Hw. unfold worker in Hw.
  destruct (jobs p !! i) as [j|] eqn:Hj; [|done].
  destruct (job_pc j) eqn:Hpc; try case_decide; simplify_eq/=.
  all: match goal with
    | |- context [<[_:=?j']> _] =>
        pose proof (sum_list_with_insert busy _ _ _ j' Hj) as Hsum;
        rewrite (busy_at _ _ Hpc) in Hsum; cbn [busy job_pc] in Hsum
    end.
  all: split; simpl; [lia|].
  all: intros k j0 r Hk Hr; destruct (decide (k = i)) as [->|Hne];
    [ rewrite list_lookup_insert_eq in Hk by (by eapply lookup_lt_Some)
    | rewrite list_lookup_insert_ne in Hk by done; by eapply Hfin ];
    by simplify_eq/=.
Qed.

Lemma submit_idle (data : list Datum) :
  sum_list_with busy ((λ d, mk_job d Queued) <$> data) = 0.
Proof. induction data as [|d data IH]; [done|]. by rewrite fmap_cons. Qed.

Lemma pool_inv_submit data : pool_inv (submit data).
Proof.
  split; simpl.
  - rewrite submit_idle. lia.
  - intros i j r Hi Hr. by apply list_lookup_fmap_Some in Hi as (d & -> & _).
Qed.

Lemma pool_exec_inv ws p p' : pool_inv p → pool_exec ws p = Some p' → pool_inv p'.
Proof.
  revert p. induction ws as [|i ws IH]; intros p Hp Hex; simplify_eq/=; [done|].
  destruct (worker i p) as [p1|] eqn:Hw; [|done].
  eapply IH; [|done]. by eapply pool_inv_step.
Qed.

(** Only a work item that occupies a worker calls the rate limiter. *)
Lemma worker_draw i p p' :
  worker i p = Some p' → draws p' ≠ draws p →
  ∃ j, jobs p !! i = Some j ∧ busy j = 1.
Proof.
  unfold worker. intros Hw Hd.
  destruct (jobs p !! i) as [j|] eqn:Hj; [|done].
  exists j. split; [done|]. unfold busy.
  destruct (job_pc j) eqn:Hpc; try case_decide; by simplify_eq/=.
Qed.

(** What [executor.map] hands back when no work item raises. *)
Lemma executor_map_returns (data : list Datum) acc :
  (∀ d, is_return (parallel_task engine d all_combinations) = true) →
  ∃ rs ups, executor_map data acc = Return (acc.1 ++ rs, acc.2 ++ ups) ∧
    key <$> rs = concat ((λ d, pair d <$> all_combinations) <$> data).
Proof.
  intros Hok. revert acc. induction data as [|d data IH]; intros acc.
  - exists [], []. by rewrite !app_nil_r; destruct acc.
  - simpl. specialize (Hok d).
    destruct (parallel_task engine d all_combinations) as [e|res] eqn:Hres; [done|].
    simpl. destruct (IH (acc.1 ++ res, acc.2 ++ [length res])) as (rs & ups & -> & Hkeys).
    exists (res ++ rs), (length res :: ups). simpl. rewrite <-!app_assoc. split; [done|].
    rewrite fmap_app, Hkeys. f_equal.
    by eapply run_single_input_keys.
Qed.

Lemma process_batches_returns (l : list (list Datum)) acc :
  (∀ d, is_return (parallel_task engine d all_combinations) = true) →
  ∃ rs ups, process_batches l acc = Return (acc.1 ++ rs, acc.2 ++ ups) ∧
    key <$> rs = pairs l.
Proof.
  intros Hok. revert acc. induction l as [|data l IH]; intros acc.
  - exists [], []. by rewrite !app_nil_r; destruct acc.
  - simpl. destruct (executor_map_returns data acc Hok) as (rs1 & ups1 & -> & Hk1).
    simpl. destruct (IH (acc.1 ++ rs1, acc.2 ++ ups1)) as (rs2 & ups2 & -> & Hk2).
    exists (rs1 ++ rs2), (ups1 ++ ups2). simpl. rewrite <-!app_assoc. split; [done|].
    unfold pairs in *. change (concat (data :: l)) with (data ++ concat l).
    by rewrite !fmap_app, concat_app, Hk1, Hk2.
Qed.

Lemma process_dataset_returns (l : list (list Datum)) :
  (∀ d, is_return (parallel_task engine d all_combinations) = true) →
  ∃ rs, _process_dataset l = Return rs ∧ key <$> rs = pairs l.
Proof.
  intros Hok. unfold _process_dataset.
  destruct (process_batches_returns l ([], []) Hok) as (rs & ups & -> & Hk).
  by exists rs.
Qed.
(** ** What a finished future carries *)

Lemma outcome_inv_step total a s s' :
  outcome_inv s → step total a s = Some s' → outcome_inv s'.
Proof.
  intros Hout Hstep. destruct a as [j|]; step_inv Hstep; try exact Hout.
  all: intros i t0 r Hi Hpc; simpl in Hi; destruct (decide (i = j)) as [->|Hne];
    [ rewrite list_lookup_insert_eq in Hi by (by eapply lookup_lt_Some)
    | rewrite list_lookup_insert_ne in Hi by done; by eapply Hout ];
    simplify_eq/=; try done.
  by eapply try_block_returns.
Qed.

Lemma outcome_inv_init n l : outcome_inv (mk_state n (spawn l) [] [] [] None [] []).
Proof.
  intros i t r Ht Hpc. unfold spawn in Ht; simpl in Ht.
  by apply list_lookup_fmap_Some in Ht as (d & -> & _).
Qed.

Lemma aprocess_outcome unused total l acts s :
  aprocess_with unused total l acts = Some s → outcome_inv s ∧ trace_inv s.
Proof.
  unfold aprocess_with. intros Hex. split.
  - eapply (exec_invariant outcome_inv); [|apply outcome_inv_init|done].
    intros a s1 s2. apply outcome_inv_step.
  - eapply exec_trace; [|done]. apply trace_inv_init.
Qed.

(** ** The progress bar *)

Lemma step_core total1 total2 a s1 s2 :
  core s1 = core s2 →
  core <$> step total1 a s1 = core <$> step total2 a s2.
Proof.
  destruct s1, s2. unfold core. simpl. intros [= -> -> -> -> -> -> ->].
  destruct a as [i|]; simpl;
    unfold eval_fn_with_semaphore, first_in_line, extend; simpl.
  all: repeat case_match; simplify_eq/=; done.
Qed.

Lemma exec_core total1 total2 acts s1 s2 :
  core s1 = core s2 →
  core <$> exec total1 acts s1 = core <$> exec total2 acts s2.
Proof.
  revert s1 s2. induction acts as [|a acts IH]; intros s1 s2 Hcore; simpl.
  - congruence.
  - pose proof (step_core total1 total2 a s1 s2 Hcore) as Hstep.
    destruct (step total1 a s1) as [s1'|], (step total2 a s2) as [s2'|];
      try done.
    apply IH. change (Some (core s1') = Some (core s2')) in Hstep. congruence.
Qed.





(** * Main results *)

Lemma steps_left_init bound n (l : list (list Datum)) :
  steps_left bound (mk_state n (spawn l) [] [] [] None [] []) =
  sum_list_with (λ d, 3 * bound d + 4) (concat l).
Proof.
  unfold steps_left, spawn. simpl. rewrite Nat.sub_0_r, length_fmap.
  induction (concat l) as [|d ds IH]; [done|].
  rewrite fmap_cons. simpl. unfold remaining at 1. simpl. lia.
Qed.

Lemma aprocess_live bound unused total l acts s :
  all_combinations ≠ [] →
  (∀ d attempt, rate_limiter_wait d attempt = None) →
  (∀ d attempt, bound d ≤ attempt →
     is_return (run_single_input engine attempt d all_combinations) = true) →
  aprocess_with unused total l acts = Some s →
  raised s = None ∧
  length acts ≤ sum_list_with (λ d, 3 * bound d + 4) (concat l) ∧
  ∃ acts' s' rs,
    aprocess_with unused total l (acts ++ acts') = Some s' ∧ returned s' = Some rs.
Proof.
  intros Hv Hw Hb Hex. rewrite <-(steps_left_init bound 20).
  destruct (aprocess_invariants _ _ _ _ _ Hex) as (Hbook & Hslots & _).
  unfold aprocess_with in *.
  destruct (exec_bounded bound Hv Hw Hb total acts _ s
              (book_inv_init _ _) (futures_ok_init _ _) eq_refl Hex)
    as (Hr & Hok & Hlen).
  split_and!; [done|lia|].
  destruct (can_return bound Hv Hw Hb total s Hbook Hslots Hok Hr)
    as (acts' & s' & rs & Hex' & Hret).
  exists acts', s', rs. by rewrite exec_app, Hex.
Qed.

(** The cooperative run under the assumptions of a run without fatal
    failure: it never raises and can always be continued to its [return]. *)
Lemma aprocess_total bound unused total l acts s :
  all_combinations ≠ [] ∨ concat l = [] →
  (∀ d attempt, rate_limiter_wait d attempt = None) →
  (∀ d attempt, bound d ≤ attempt →
     is_return (run_single_input engine attempt d all_combinations) = true) →
  aprocess_with unused total l acts = Some s →
  raised s = None ∧
  length acts ≤ sum_list_with (λ d, 3 * bound d + 4) (concat l) ∧
  ∃ acts' s' rs,
    aprocess_with unused total l (acts ++ acts') = Some s' ∧ returned s' = Some rs.
Proof.
  intros [Hv|Hnone] Hw Hb Hex.
  - by apply (aprocess_live bound _ _ _ _ _ Hv Hw Hb Hex).
  - destruct (no_data_no_step _ _ _ _ _ Hnone Hex) as [-> Hret]. split_and!.
    + unfold returned in Hret. by destruct (raised s).
    + simpl. lia.
    + by exists [], s, [].
Qed.

Lemma run_single_input_returns attempt d (vs : list Variation) :
  (∀ c, is_return (engine d attempt c) = true) →
  is_return (run_single_input engine attempt d vs) = true.
Proof.
  intros Hok. induction vs as [|c cs IH]; [done|]. simpl.
  specialize (Hok c). destruct (engine d attempt c); [done|]. simpl.
  by destruct (run_single_input engine attempt d cs).
Qed.

(** Completeness where the cooperative run can return at all: when there is
    at least one variation combination, or no data point, and no task fails
    for good (the rate limiter never raises and every task succeeds from some
    attempt on), then every cooperative run can be continued until
    [_aprocess_dataset] returns, no run raises, no run takes more than
    [3 * bound d + 4] steps per data point [d], and the list returned holds
    exactly one result per (datum, variation) pair, [|D| * |V|] of them,
    whatever the order in which the tasks completed; the thread pool, which
    attempts each task once, returns the results of all pairs when no attempt
    fails. *)
Theorem completeness (bound : Datum → nat) (data_batches : list (list Datum)) :
  all_combinations ≠ [] ∨ concat data_batches = [] →
  (∀ d attempt, rate_limiter_wait d attempt = None) →
  (∀ d attempt, bound d ≤ attempt →
     is_return (run_single_input engine attempt d all_combinations) = true) →
  (∀ acts s, _aprocess_dataset data_batches acts = Some s →
     raised s = None ∧
     length acts ≤ sum_list_with (λ d, 3 * bound d + 4) (concat data_batches) ∧
     (∃ acts' s' rs, _aprocess_dataset data_batches (acts ++ acts') = Some s' ∧
        returned s' = Some rs) ∧
     (∀ rs, returned s = Some rs →
        key <$> rs ≡ₚ pairs data_batches ∧
        length rs = length (concat data_batches) * length all_combinations)) ∧
  ((∀ d, bound d = 0) →
   ∃ rs, _process_dataset data_batches = Return rs ∧
     key <$> rs = pairs data_batches ∧
     length rs = length (concat data_batches) * length all_combinations).
Proof.
  intros Hv Hw Hb. split.
  - intros acts s Hex. unfold _aprocess_dataset in *.
    destruct (aprocess_total bound _ _ _ _ _ Hv Hw Hb Hex) as (Hr & Hlen & Hlive).
    split_and!; [done..|intros rs; by eapply aprocess_returned].
  - intros Hzero.
    destruct (process_dataset_returns data_batches) as (rs & Hrs & Hkeys).
    { intros d. apply Hb. rewrite Hzero. lia. }
    exists rs. split_and!; [done..|].
    by rewrite <-(length_fmap key rs), Hkeys, length_pairs.
Qed.

(** The two schedulers where the cooperative run can return at all: when
    there is at least one variation combination, or no data point, and no
    evaluation fails, the thread pool returns a list, the cooperative
    scheduler can always be run to its [return], and whatever list it returns
    covers the same (datum, variation) keys as the list of the thread pool,
    each key as often, in some order. *)
Theorem scheduler_equivalence (data_batches : list (list Datum)) :
  all_combinations ≠ [] ∨ concat data_batches = [] →
  (∀ d attempt, rate_limiter_wait d attempt = None) →
  (∀ d attempt c, is_return (engine d attempt c) = true) →
  ∃ rs_pool, _process_dataset data_batches = Return rs_pool ∧
    (∃ acts s rs, _aprocess_dataset data_batches acts = Some s ∧
       returned s = Some rs) ∧
    ∀ acts s rs, _aprocess_dataset data_batches acts = Some s →
      returned s = Some rs → key <$> rs ≡ₚ key <$> rs_pool.
Proof.
  intros Hv Hw He.
  destruct (process_dataset_returns data_batches) as (rs_pool & Hpool & Hkeys).
  { intros d. by apply run_single_input_returns. }
  exists rs_pool. split_and!; [done| |].
  - pose (n := sum_list (length <$> data_batches) * length all_combinations).
    destruct (aprocess_total (λ _, 0) n n data_batches []
                (mk_state 20 (spawn data_batches) [] [] [] None [] []) Hv Hw)
      as (_ & _ & acts & s & rs & ?);
      [intros; by apply run_single_input_returns|reflexivity|].
    by exists acts, s, rs.
  - intros acts s rs Hex Hret. rewrite Hkeys. unfold _aprocess_dataset in Hex.
    by eapply aprocess_returned.
Qed.

(** The first data point, alone through the section, then merged. *)
Lemma first_future_none unused total (l : list (list Datum)) :
  all_combinations = [] → concat l ≠ [] →
  (∀ d attempt, rate_limiter_wait d attempt = None) →
  ∃ s, aprocess_with unused total l [Resume 0; Resume 0; Resume 0; Collect] = Some s ∧
    raised s = Some TypeError.
Proof.
  intros Hv Hl Hw. unfold aprocess_with, spawn.
  destruct (concat l) as [|d ds]; [done|].
  rewrite fmap_cons. simpl. unfold eval_fn_with_semaphore, first_in_line. simpl.
  rewrite Hw. simpl. unfold try_block. rewrite Hv. simpl. eauto.
Qed.

(** C10 (amended): with no variation combination [aparallel_task] returns
    [None], not an empty list; every future that returns then carries [None],
    and the step [results.extend(await future)] raises (a [TypeError] when the
    rate limiter itself never raises), which a run with at least one data
    point reaches; so [_aprocess_dataset] returns only if [all_combinations]
    is not empty or there is no data point at all. *)
Theorem empty_combinations (data_batches : list (list Datum)) :
  (∀ attempt d, aparallel_task engine attempt d [] = Return None) ∧
  (all_combinations = [] →
   (∀ acts s, _aprocess_dataset data_batches acts = Some s →
      (∀ i t resutls, tasks s !! i = Some t →
         at_pc t = Done (Return resutls) → resutls = None) ∧
      (∀ total s', extend total s = Some s' →
         ∃ e, raised s' = Some e ∧
           ((∀ d attempt, rate_limiter_wait d attempt = None) → e = TypeError))) ∧
   (concat data_batches ≠ [] →
    (∀ d attempt, rate_limiter_wait d attempt = None) →
    ∃ acts s, _aprocess_dataset data_batches acts = Some s ∧
      raised s = Some TypeError)) ∧
  (∀ acts s rs, _aprocess_dataset data_batches acts = Some s →
     returned s = Some rs →
     all_combinations ≠ [] ∨ concat data_batches = []).
Proof.
  split_and!.
  - done.
  - intros Hv. split.
    + intros acts s Hex. unfold _aprocess_dataset in Hex.
      destruct (aprocess_outcome _ _ _ _ _ Hex) as [Hout _].
      assert (Hnone : ∀ i t resutls, tasks s !! i = Some t →
                at_pc t = Done (Return resutls) → resutls = None).
      { intros i t resutls Ht Hpc. specialize (Hout i t _ Ht Hpc). simpl in Hout.
        rewrite Hv in Hout. by simplify_eq/=. }
      split; [done|].
      intros total s' Hext. unfold extend in Hext.
      destruct (raised s); [done|]. destruct (queue s) as [|i q]; [done|].
      destruct (tasks s !! i) as [t|] eqn:Ht; [|done]. simpl in Hext.
      destruct (at_pc t) as [| | | |[e|[rs|]]] eqn:Hpc; simplify_eq/=.
      * exists e. split; [done|]. intros Hw.
        specialize (Hout i t _ Ht Hpc). simpl in Hout. by rewrite Hw in Hout.
      * by specialize (Hnone i t _ Ht Hpc).
      * by exists TypeError.
    + intros Hl Hw. unfold _aprocess_dataset.
      destruct (first_future_none
                  (sum_list (length <$> data_batches) * length all_combinations)
                  (sum_list (length <$> data_batches) * length all_combinations)
                  data_batches Hv Hl Hw) as (s & Hex & Hr).
      by exists [Resume 0; Resume 0; Resume 0; Collect], s.
  - intros acts s rs Hex Hret. unfold _aprocess_dataset in Hex.
    destruct all_combinations as [|c cs] eqn:Hv; [|by left].
    destruct (concat data_batches) as [|d ds] eqn:Hl; [by right|].
    assert (Hne : concat data_batches ≠ []) by (by rewrite Hl).
    pose proof (no_return_without_combinations _ _ _ _ _ Hv Hne Hex) as Hno.
    congruence.
Qed.





Lemma step_rate_wait total a s s' i :
  step total a s = Some s' →
  tally (is_rate_wait i) (trace s') ≠ tally (is_rate_wait i) (trace s) →
  ∃ t, tasks s !! i = Some t ∧ holds_slot t = true.
Proof.
  intros Hstep Hne. destruct a as [j|]; step_inv Hstep; try done.
  all: revert Hne; tally_simpl; repeat case_bool_decide; simplify_eq/=;
    try (intros Hne; lia).
  intros _. exists t. split; [done|]. unfold holds_slot.
  match goal with Hpc : at_pc t = _ |- _ => by rewrite Hpc end.
Qed.

(** C4: in every state of a cooperative run at most 20 tasks are inside
    [async with semaphore], and a task that completes a [rate_limiter.wait()]
    is one of them; in every state of the thread pool at most [max_workers]
    work items are being run, and a work item that calls the rate limiter is
    one of them. *)
Theorem admission_bound (data_batches : list (list Datum)) (data : list Datum) :
  (∀ acts s, _aprocess_dataset data_batches acts = Some s →
     in_section s ≤ 20 ∧
     ∀ total a s' i, step total a s = Some s' →
       tally (is_rate_wait i) (trace s') ≠ tally (is_rate_wait i) (trace s) →
       ∃ t, tasks s !! i = Some t ∧ holds_slot t = true) ∧
  (∀ ws p, pool_exec ws (submit data) = Some p →
     sum_list_with busy (jobs p) ≤ max_workers ∧
     ∀ i p', worker i p = Some p' → draws p' ≠ draws p →
       ∃ j, jobs p !! i = Some j ∧ busy j = 1).
Proof.
  split.
  - intros acts s Hex. unfold _aprocess_dataset in Hex.
    destruct (aprocess_invariants _ _ _ _ _ Hex) as (_ & [Hsem _] & _).
    split; [lia|]. intros total a s' i. apply step_rate_wait.
  - intros ws p Hex.
    destruct (pool_exec_inv _ _ _ (pool_inv_submit data) Hex) as [Hbusy _].
    split; [done|]. intros i p'. apply worker_draw.
Qed.

(** C7: in every state of a cooperative run the free slots and the tasks
    inside the section add up to 20; a task has entered the section once more
    than it has left it exactly while it is inside; a task whose future is
    finished, by a return or by an exception, holds no slot, having entered
    once and left once; and once every future is finished all 20 slots are
    free. *)
Theorem slot_released (data_batches : list (list Datum)) acts s :
  _aprocess_dataset data_batches acts = Some s →
  sem s + in_section s = 20 ∧
  (∀ i t, tasks s !! i = Some t →
     tally (is_acquire i) (trace s) = tally (is_release i) (trace s) + slot t ∧
     (is_done t = true →
        holds_slot t = false ∧
        tally (is_acquire i) (trace s) = 1 ∧
        tally (is_release i) (trace s) = 1)) ∧
  ((∀ i t, tasks s !! i = Some t → is_done t = true) → sem s = 20).
Proof.
  unfold _aprocess_dataset. intros Hex.
  destruct (aprocess_invariants _ _ _ _ _ Hex) as (_ & [Hsem Hacq] & _).
  destruct (aprocess_outcome _ _ _ _ _ Hex) as [_ Htr].
  assert (Hd : ∀ t, is_done t = true → slot t = 0).
  { intros t. unfold is_done, slot, holds_slot. by destruct (at_pc t). }
  split_and!; [done| |].
  - intros i t Ht. split; [by apply Hacq|]. intros Hdone.
    specialize (Hacq i t Ht). destruct (Htr i t Ht) as (Hrel & _).
    rewrite Hdone in Hrel. rewrite (Hd t Hdone) in Hacq.
    split_and!; [|lia|done].
    unfold is_done, holds_slot in *. by destruct (at_pc t).
  - intros Hall. enough (in_section s = 0) by lia. unfold in_section.
    clear -Hall Hd. induction (tasks s) as [|t ts IH]; [done|]. simpl.
    rewrite (Hd t), IH; [done| |].
    + intros i t' Hi. by apply (Hall (S i)).
    + by apply (Hall 0).
Qed.

Lemma returned_core s : returned (core s) = returned s.
Proof. done. Qed.

(** C8: the value of the expression statement on line 62 and the total
    handed to [tqdm] influence nothing but the progress bar: under the same
    scheduling choices, two runs that differ in them admit the same steps and
    reach states equal in everything but the bar, and return the same list;
    whatever value line 62 is given, the run is the same. *)
Theorem progress_noninterference (data_batches : list (list Datum)) acts :
  (∀ unused1 unused2 total1 total2,
     core <$> aprocess_with unused1 total1 data_batches acts =
     core <$> aprocess_with unused2 total2 data_batches acts) ∧
  (∀ unused total,
     aprocess_with unused total data_batches acts ≫= returned =
     _aprocess_dataset data_batches acts ≫= returned) ∧
  (∀ unused,
     _aprocess_dataset data_batches acts =
     aprocess_with unused
       (sum_list (length <$> data_batches) * length all_combinations)
       data_batches acts).
Proof.
  assert (Hcore : ∀ unused1 unused2 total1 total2,
            core <$> aprocess_with unused1 total1 data_batches acts =
            core <$> aprocess_with unused2 total2 data_batches acts).
  { intros. unfold aprocess_with. by apply exec_core. }
  split_and!; [done| |done].
  intros unused total. unfold _aprocess_dataset.
  specialize (Hcore unused
    (sum_list (length <$> data_batches) * length all_combinations) total
    (sum_list (length <$> data_batches) * length all_combinations)).
  destruct (aprocess_with unused total data_batches acts) as [s1|],
    (aprocess_with _ _ data_batches acts) as [s2|]; try done.
  simpl in *. rewrite <-(returned_core s1), <-(returned_core s2). congruence.
Qed.

(** While [results] is empty a task that returns reports no cost. *)
Lemma no_cost_while_results_empty i s s' :
  results s = [] → eval_fn_with_semaphore i s = Some s' →
  tally is_add_tokens (trace s') = tally is_add_tokens (trace s).
Proof.
  intros Hres Hstep. step_inv Hstep; tally_simpl; try lia.
  unfold try_block, py_bind in *. rewrite Hres in *. simpl in *.
  repeat case_match; simplify_eq/=. tally_simpl. lia.
Qed.

(** Whatever the exception of an attempt, the task goes to sleep and stays
    in the section. *)
Lemma every_failure_is_retried i s t e :
  tasks s !! i = Some t → at_pc t = Calling →
  aparallel_task engine (failed t) (data_point t) all_combinations = Raise e →
  ∃ s', eval_fn_with_semaphore i s = Some s' ∧
    tasks s' !! i = Some (mk_task (data_point t) Sleeping (S (failed t))) ∧
    raised s' = raised s ∧ queue s' = queue s.
Proof.
  intros Ht Hpc Hfail. unfold eval_fn_with_semaphore, try_block.
  rewrite Ht, Hpc, Hfail. simpl. eexists. split_and!; [done| |done..].
  simpl. apply list_lookup_insert_eq. by eapply lookup_lt_Some.
Qed.

(** ** [run] *)










(** * Further properties *)

(** ** Progress bar, rate limiter and cost of the cooperative run *)

Lemma bar_snoc total k : bar total (S k) = bar total k ++ [(S k, total)].
Proof. unfold bar. by rewrite seq_S, fmap_app. Qed.

Lemma pbar_inv_step total a s s' :
  pbar_inv total s → step total a s = Some s' → pbar_inv total s'.
Proof.
  intros [Hbar Hlen] Hstep. destruct a as [j|]; step_inv Hstep.
  all: try rewrite H in Hlen.
  all: split; simpl; rewrite ?length_app; simpl in *; try done; try lia.
  assert (length (pbar s) = length (consumed s)) as <- by lia.
  by rewrite Nat.add_1_r, bar_snoc, <-Hbar.
Qed.

Lemma rate_inv_step total a s s' :
  rate_inv s → step total a s = Some s' → rate_inv s'.
Proof.
  intros Hrate Hstep. destruct a as [j|]; step_inv Hstep; try exact Hrate.
  all: intros i t0 Hi; simpl in Hi; destruct (decide (i = j)) as [->|Hne];
    [ rewrite list_lookup_insert_eq in Hi by (by eapply lookup_lt_Some)
    | rewrite list_lookup_insert_ne in Hi by done ];
    simplify_eq/=.
  all: tally_simpl.
  all: repeat case_bool_decide; simplify_eq/=.
  all: match goal with
    | Hl : tasks _ !! ?k = Some ?u |- context [tally (is_rate_wait ?k) _] =>
        specialize (Hrate _ _ Hl)
    end.
  all: unfold is_calling in *; simpl.
  all: try match goal with
    | Hpc : at_pc ?t = _ |- _ => rewrite Hpc in *
    end.
  all: lia.
Qed.

Lemma tokens_of_app i tr1 tr2 :
  tokens_of i (tr1 ++ tr2) = tokens_of i tr1 ++ tokens_of i tr2.
Proof. apply omap_app. Qed.

Lemma tokens_of_own i (costs : list Z) :
  tokens_of i (EvAddTokens i <$> costs) = costs.
Proof.
  unfold tokens_of. induction costs as [|n costs IH]; [done|].
  rewrite fmap_cons. simpl.
  rewrite bool_decide_eq_true_2 by done. simpl. f_equal. exact IH.
Qed.

Lemma tokens_of_other i j (costs : list Z) :
  j ≠ i → tokens_of i (EvAddTokens j <$> costs) = [].
Proof.
  intros Hne. unfold tokens_of. induction costs as [|n costs IH]; [done|].
  rewrite fmap_cons. simpl.
  rewrite bool_decide_eq_false_2 by done. exact IH.
Qed.

(** The [add_tokens] calls of a [try] block that returns. *)
Lemma try_block_costs res t resutls costs :
  try_block res t = Return (resutls, costs) →
  costs = [] ∨ ∃ rs, res ≠ [] ∧ resutls = Some rs ∧ costs = token_usage <$> rs.
Proof.
  unfold try_block, py_bind. intros H.
  destruct (aparallel_task _ _ _ _) as [e|r]; [done|].
  destruct res as [|x res]; simpl in H.
  - left. by simplify_eq.
  - destruct r as [rs|]; [|done]. right. exists rs. by simplify_eq.
Qed.

Lemma cost_inv_step total a s s' :
  cost_inv s → step total a s = Some s' → cost_inv s'.
Proof.
  intros Hcost Hstep. destruct a as [j|]; step_inv Hstep; try exact Hcost.
  all: intros i t0 Hi; simpl in Hi; destruct (decide (i = j)) as [->|Hne];
    [ rewrite list_lookup_insert_eq in Hi by (by eapply lookup_lt_Some)
    | rewrite list_lookup_insert_ne in Hi by done ];
    simplify_eq/=.
  all: rewrite ?tokens_of_app; simpl; rewrite ?app_nil_r.
  all: match goal with
    | Hl : tasks _ !! ?k = Some ?u |- context [tokens_of ?k _] =>
        pose proof (Hcost _ _ Hl) as Hk
    end.
  all: try (destruct Hk as [Hk|(rs & Hpc & Hk)]; [by left|congruence]).
  all: try done.
  - rewrite tokens_of_own.
    destruct Hk as [Hk|(rs & Hpc & Hk)]; [|congruence]. rewrite Hk. simpl.
    match goal with
    | Htry : try_block _ _ = Return _ |- _ =>
        destruct (try_block_costs _ _ _ _ Htry) as [->|(rs & _ & -> & ->)]
    end; [by left|].
    right. by exists rs.
  - rewrite tokens_of_other, app_nil_r by congruence. exact Hk.
Qed.

Lemma released_app tr1 tr2 : released (tr1 ++ tr2) = released tr1 ++ released tr2.
Proof. apply omap_app. Qed.

Lemma released_add_tokens j (costs : list Z) : released (EvAddTokens j <$> costs) = [].
Proof. induction costs as [|n costs IH]; [done|]. by rewrite fmap_cons. Qed.

Lemma order_inv_step total a s s' :
  order_inv s → step total a s = Some s' → order_inv s'.
Proof.
  unfold order_inv. intros Hord Hstep. destruct a as [j|]; step_inv Hstep.
  all: try match goal with Hq : queue _ = _ |- _ => rewrite Hq in Hord end.
  all: rewrite ?released_app, ?released_add_tokens; simpl;
    rewrite ?app_nil_r, ?Hord, <-?app_assoc; simpl;
    rewrite ?released_add_tokens; done.
Qed.

Lemma sum_list_length_concat {A} (l : list (list A)) :
  sum_list (length <$> l) = length (concat l).
Proof.
  induction l as [|x l IH]; [done|].
  rewrite fmap_cons; simpl. by rewrite length_app, IH.
Qed.

Lemma aprocess_further unused total l acts s :
  aprocess_with unused total l acts = Some s →
  pbar_inv total s ∧ rate_inv s ∧ cost_inv s ∧ order_inv s.
Proof.
  unfold aprocess_with. intros Hex. split_and!.
  - refine (exec_invariant (pbar_inv total) total _ acts _ s _ Hex).
    + intros a s1 s2. apply pbar_inv_step.
    + split; reflexivity.
  - refine (exec_invariant rate_inv total _ acts _ s _ Hex).
    + intros a s1 s2. apply rate_inv_step.
    + intros i t Ht. unfold spawn in Ht; simpl in Ht.
      by apply list_lookup_fmap_Some in Ht as (d & -> & _).
  - refine (exec_invariant cost_inv total _ acts _ s _ Hex).
    + intros a s1 s2. apply cost_inv_step.
    + intros i t Ht. by left.
  - refine (exec_invariant order_inv total _ acts _ s _ Hex).
    + intros a s1 s2. apply order_inv_step.
    + reflexivity.
Qed.

(** X1: the progress bar of the cooperative run advances once per merged
    future, each time under the total [|D| * |V|]; it never shows more than
    [|D|], and when the run returns it stands at [|D|] while the list
    returned has [|D| * |V|] entries. *)
Theorem progress_bar_counts_tasks (data_batches : list (list Datum)) acts s :
  _aprocess_dataset data_batches acts = Some s →
  pbar s = bar (length (concat data_batches) * length all_combinations)
             (length (pbar s)) ∧
  length (pbar s) ≤ length (concat data_batches) ∧
  (raised s = None → length (pbar s) = length (consumed s)) ∧
  (∀ rs, returned s = Some rs →
     length (pbar s) = length (concat data_batches) ∧
     length rs = length (concat data_batches) * length all_combinations).
Proof.
  unfold _aprocess_dataset. rewrite sum_list_length_concat. intros Hex.
  destruct (aprocess_further _ _ _ _ _ Hex) as ([Hbar Hlen] & _).
  destruct (aprocess_invariants _ _ _ _ _ Hex) as (Hb & _ & Hdata).
  pose proof (handed_bound _ Hb) as Hle.
  assert (Hn : length (tasks s) = length (concat data_batches))
    by (by rewrite <-Hdata, length_fmap).
  split_and!; [done| | |].
  - destruct (raised s); lia.
  - intros Hr. rewrite Hr in Hlen. lia.
  - intros rs Hret. split; [|by eapply aprocess_returned].
    unfold returned in Hret. destruct (raised s); [done|].
    case_decide; [lia|done].
Qed.

(** X2: in every cooperative run a task has completed one
    [rate_limiter.wait()] for each call of [aparallel_task] it has made, and
    one more when it is about to call: every attempt, retries included, is
    preceded by a wait of its own. *)
Theorem rate_wait_before_every_call (data_batches : list (list Datum)) acts s :
  _aprocess_dataset data_batches acts = Some s →
  ∀ i t, tasks s !! i = Some t →
    tally (is_rate_wait i) (trace s) =
      tally (is_call i) (trace s) + (if is_calling t then 1 else 0) ∧
    tally (is_call i) (trace s) = failed t + (if has_returned t then 1 else 0).
Proof.
  unfold _aprocess_dataset. intros Hex i t Ht.
  destruct (aprocess_further _ _ _ _ _ Hex) as (_ & Hrate & _).
  destruct (aprocess_outcome _ _ _ _ _ Hex) as [_ Htr].
  split; [by apply Hrate|]. by destruct (Htr i t Ht) as (_ & _ & _ & ?).
Qed.

(** X3: in every cooperative run a task has reported to the rate limiter
    either nothing or, once it has returned a list, the token usage of each
    of its results in order; failed attempts report nothing and no cost is
    reported twice.  A task that returns a list while [results] is not empty
    reports the token usage of all its results before it leaves the
    semaphore. *)
Theorem cost_reported_at_most_once (data_batches : list (list Datum)) acts s :
  _aprocess_dataset data_batches acts = Some s →
  (∀ i t, tasks s !! i = Some t →
     tokens_of i (trace s) = [] ∨
     ∃ rs, at_pc t = Done (Return (Some rs)) ∧
       tokens_of i (trace s) = token_usage <$> rs) ∧
  (∀ i t rs s', tasks s !! i = Some t → at_pc t = Calling → results s ≠ [] →
     aparallel_task engine (failed t) (data_point t) all_combinations
       = Return (Some rs) →
     eval_fn_with_semaphore i s = Some s' →
     trace s' = trace s ++ EvCall i (failed t)
                  :: (EvAddTokens i <$> (token_usage <$> rs)) ++ [EvRelease i] ∧
     tokens_of i (trace s') = token_usage <$> rs).
Proof.
  unfold _aprocess_dataset. intros Hex.
  destruct (aprocess_further _ _ _ _ _ Hex) as (_ & _ & Hcost & _).
  split; [exact Hcost|].
  intros i t rs s' Ht Hpc Hres Hcall Hstep.
  unfold eval_fn_with_semaphore, try_block in Hstep.
  rewrite Ht, Hpc, Hcall in Hstep. simpl in Hstep.
  destruct (results s) as [|r res]; [done|]. simpl in Hstep. simplify_eq/=.
  rewrite <-app_assoc. split; [done|].
  rewrite !tokens_of_app. simpl. rewrite tokens_of_own, app_nil_r.
  destruct (Hcost i t Ht) as [->|(rs' & Hpc' & _)]; [done|congruence].
Qed.

(** X4: in every cooperative run the futures are merged in the order in
    which their tasks left the semaphore: while nothing is raised, [results]
    is the concatenation of the batches of the first tasks to finish, in
    the order they finished, not in submission order. *)
Theorem results_in_completion_order (data_batches : list (list Datum)) acts s :
  _aprocess_dataset data_batches acts = Some s →
  released (trace s) = consumed s ++ queue s ∧
  (raised s = None →
   results s = concat (batch_of (tasks s)
                         <$> take (length (consumed s)) (released (trace s)))).
Proof.
  unfold _aprocess_dataset. intros Hex.
  destruct (aprocess_further _ _ _ _ _ Hex) as (_ & _ & _ & Hord).
  destruct (aprocess_invariants _ _ _ _ _ Hex) as (Hb & _ & _).
  split; [exact Hord|]. intros Hr.
  rewrite Hord, take_app_length. by apply Hb.
Qed.

(** ** Failures in the cooperative run *)

(** A finished future never changes. *)
Lemma step_done total a s s' i t :
  tasks s !! i = Some t → is_done t = true → step total a s = Some s' →
  tasks s' !! i = Some t.
Proof.
  intros Ht Hd Hstep.
  destruct a as [j|]; step_inv Hstep; try done.
  all: destruct (decide (i = j)) as [->|Hne];
    [ simplify_eq; unfold is_done in Hd;
      match goal with Hpc : at_pc _ = _ |- _ => by rewrite Hpc in Hd end
    | by rewrite list_lookup_insert_ne ].
Qed.

Lemma exec_done total acts s s' i t :
  tasks s !! i = Some t → is_done t = true → exec total acts s = Some s' →
  tasks s' !! i = Some t.
Proof.
  revert s. induction acts as [|a acts IH]; intros s Ht Hd Hex; simplify_eq/=; [done|].
  destruct (step total a s) as [s1|] eqn:Hstep; [|done].
  eapply IH; [|done..]. by eapply step_done.
Qed.

(** X6: when [rate_limiter.wait()] raises in a task of a cooperative run,
    the next resumption of the task takes it out of the semaphore, the slot
    is given back and the exception is left in its future; from then on the
    future stays as it is, no continuation of the run returns, and once the
    main loop has taken that future the run has raised. *)
Theorem failed_future_aborts_run (data_batches : list (list Datum)) acts s i t e :
  _aprocess_dataset data_batches acts = Some s →
  tasks s !! i = Some t → at_pc t = Waiting →
  rate_limiter_wait (data_point t) (failed t) = Some e →
  ∃ s1,
    eval_fn_with_semaphore i s = Some s1 ∧
    tasks s1 = <[i:=mk_task (data_point t) (Done (Raise e)) (failed t)]> (tasks s) ∧
    sem s1 = S (sem s) ∧
    trace s1 = trace s ++ [EvRelease i] ∧
    queue s1 = queue s ++ [i] ∧
    tally (is_release i) (trace s1) = 1 ∧
    ∀ acts' s',
      _aprocess_dataset data_batches (acts ++ Resume i :: acts') = Some s' →
      tasks s' !! i = Some (mk_task (data_point t) (Done (Raise e)) (failed t)) ∧
      returned s' = None ∧
      (i ∈ consumed s' → ∃ e', raised s' = Some e').
Proof.
  unfold _aprocess_dataset. intros Hex Ht Hpc Hw.
  pose proof (lookup_lt_Some _ _ _ Ht) as Hlt.
  assert (Hstep : eval_fn_with_semaphore i s = Some (finish i t (Raise e) s)).
  { unfold eval_fn_with_semaphore. by rewrite Ht, Hpc, Hw. }
  exists (finish i t (Raise e) s). split_and!; [done..| |].
  - assert (Hex1 : aprocess_with
                     (sum_list (length <$> data_batches) * length all_combinations)
                     (sum_list (length <$> data_batches) * length all_combinations)
                     data_batches (acts ++ [Resume i])
                   = Some (finish i t (Raise e) s)).
    { unfold aprocess_with in *. rewrite exec_app, Hex. simpl. by rewrite Hstep. }
    destruct (aprocess_outcome _ _ _ _ _ Hex1) as [_ Htr].
    destruct (Htr i (mk_task (data_point t) (Done (Raise e)) (failed t)))
      as (Hrel & _); [by apply list_lookup_insert_eq|done].
  - intros acts' s' Hex'.
    destruct (aprocess_invariants _ _ _ _ _ Hex') as (Hb & _ & _).
    unfold aprocess_with in Hex, Hex'. rewrite exec_app, Hex in Hex'.
    simpl in Hex'. rewrite Hstep in Hex'.
    assert (Ht' : tasks s' !! i
                  = Some (mk_task (data_point t) (Done (Raise e)) (failed t))).
    { eapply exec_done; [|done|exact Hex']. by apply list_lookup_insert_eq. }
    split_and!; [done| |].
    + destruct (returned s') as [rs|] eqn:Hret; [|done].
      destruct (returned_results _ _ Hb Hret) as [_ Hall].
      destruct (Hall i _ Ht') as [rs' Hpc']. done.
    + intros Hin. destruct (raised s') as [e'|] eqn:Hr; [by exists e'|].
      destruct (book_consumed _ Hb Hr i Hin) as (t' & rs' & ? & ?).
      by simplify_eq.
Qed.

Section Livelock.
Hypothesis combinations_given : all_combinations ≠ [].
Hypothesis wait_returns_always : ∀ d attempt, rate_limiter_wait d attempt = None.
Hypothesis engine_always_fails : ∀ d attempt,
  is_return (run_single_input engine attempt d all_combinations) = false.

Lemma try_block_never_returns res t : is_return (try_block res t) = false.
Proof.
  unfold try_block. rewrite aparallel_task_given by done. unfold py_bind.
  pose proof (engine_always_fails (data_point t) (failed t)) as Hf.
  by destruct (run_single_input _ _ _ _).
Qed.

Lemma nothing_done_step total a s s' :
  nothing_done s → step total a s = Some s' → nothing_done s'.
Proof.
  intros (Hr & Hq & Hc & Hres & Hnd) Hstep.
  destruct a as [j|]; step_inv Hstep.
  all: try by rewrite wait_returns_always in *.
  all: try match goal with
    | Htry : try_block ?r ?t = Return _ |- _ =>
        pose proof (try_block_never_returns r t) as Hno; by rewrite Htry in Hno
    end.
  all: split_and!; simpl; try done.
  all: intros i t0 Hi; destruct (decide (i = j)) as [->|Hne];
    [ rewrite list_lookup_insert_eq in Hi by (by eapply lookup_lt_Some);
      by simplify_eq
    | rewrite list_lookup_insert_ne in Hi by done; by eapply Hnd ].
Qed.
End Livelock.

(** X7: when the evaluation of every task fails on every attempt (and there
    is a data point and a combination, and the rate limiter returns), the
    cooperative run neither returns nor raises: in every state reached no
    future is finished, [results] is empty, some coroutine can be resumed,
    and there are runs of every length. *)
Theorem retries_without_bound (data_batches : list (list Datum)) :
  all_combinations ≠ [] → concat data_batches ≠ [] →
  (∀ d attempt, rate_limiter_wait d attempt = None) →
  (∀ d attempt,
     is_return (run_single_input engine attempt d all_combinations) = false) →
  (∀ acts s, _aprocess_dataset data_batches acts = Some s →
     raised s = None ∧ returned s = None ∧ results s = [] ∧
     (∀ i t, tasks s !! i = Some t → is_done t = false) ∧
     ∃ a s', _aprocess_dataset data_batches (acts ++ [a]) = Some s') ∧
  (∀ n, ∃ acts s, _aprocess_dataset data_batches acts = Some s ∧ length acts = n).
Proof.
  intros Hv Hl Hw Hfail.
  assert (Hall : ∀ acts s, _aprocess_dataset data_batches acts = Some s →
            raised s = None ∧ returned s = None ∧ results s = [] ∧
            (∀ i t, tasks s !! i = Some t → is_done t = false) ∧
            ∃ a s', _aprocess_dataset data_batches (acts ++ [a]) = Some s').
  { unfold _aprocess_dataset. intros acts s Hex.
    destruct (aprocess_invariants _ _ _ _ _ Hex) as (Hb & Hs & Hdata).
    assert (Hnd : nothing_done s).
    { unfold aprocess_with in Hex.
      refine (exec_invariant nothing_done _ _ acts _ s _ Hex).
      - intros a s1 s2. by apply nothing_done_step.
      - split_and!; try done. intros i t Ht. unfold spawn in Ht; simpl in Ht.
        by apply list_lookup_fmap_Some in Ht as (d & -> & _). }
    destruct Hnd as (Hr & Hq & Hc & Hres & Hnd).
    assert (Hret : returned s = None).
    { unfold returned. rewrite Hr, Hc. case_decide as Hlen; [|done].
      destruct (tasks s); [by rewrite <-Hdata in Hl|done]. }
    split_and!; [done..|].
    destruct (step_enabled
                (sum_list (length <$> data_batches) * length all_combinations)
                s Hb Hs Hr Hret) as (a & s' & Hstep).
    exists a, s'. unfold aprocess_with in *. rewrite exec_app, Hex. simpl.
    by rewrite Hstep. }
  split; [exact Hall|].
  induction n as [|n (acts & s & Hex & Hlen)].
  - by exists [], (mk_state 20 (spawn data_batches) [] [] [] None [] []).
  - destruct (Hall acts s Hex) as (_ & _ & _ & _ & a & s' & Hex').
    exists (acts ++ [a]), s'. split; [done|]. rewrite length_app. simpl. lia.
Qed.

(** ** The thread-pool run *)

Lemma executor_map_app (data1 data2 : list Datum) acc :
  executor_map (data1 ++ data2) acc =
  do acc' <- executor_map data1 acc; executor_map data2 acc'.
Proof.
  revert acc. induction data1 as [|d data1 IH]; intros acc; [done|]. simpl.
  destruct (parallel_task engine d all_combinations); [done|]. simpl. apply IH.
Qed.

Lemma process_batches_flat (l : list (list Datum)) acc :
  process_batches l acc = executor_map (concat l) acc.
Proof.
  revert acc. induction l as [|data l IH]; intros acc; [done|]. simpl.
  rewrite executor_map_app. destruct (executor_map data acc); [done|]. simpl.
  apply IH.
Qed.

(** X8: only the sequence of data points matters, not how it is cut into
    batches: two lists of batches with the same concatenation give the same
    thread-pool outcome and, under the same scheduling choices, the same
    cooperative run. *)
Theorem batches_do_not_matter (batches1 batches2 : list (list Datum)) :
  concat batches1 = concat batches2 →
  _process_dataset batches1 = _process_dataset batches2 ∧
  ∀ acts, _aprocess_dataset batches1 acts = _aprocess_dataset batches2 acts.
Proof.
  intros Heq. split.
  - unfold _process_dataset. by rewrite !process_batches_flat, Heq.
  - intros acts. unfold _aprocess_dataset, aprocess_with, spawn.
    by rewrite !sum_list_length_concat, Heq.
Qed.

Lemma executor_map_raises (data : list Datum) acc e :
  executor_map data acc = Raise e ↔
  ∃ pre d post, data = pre ++ d :: post ∧
    (∀ d', d' ∈ pre → is_return (parallel_task engine d' all_combinations) = true) ∧
    parallel_task engine d all_combinations = Raise e.
Proof.
  revert acc. induction data as [|d data IH]; intros acc; simpl.
  - split; [done|]. intros (pre & d & post & Heq & _). by destruct pre.
  - destruct (parallel_task engine d all_combinations) as [e'|res] eqn:Hd; simpl.
    + split.
      * intros [= ->]. exists [], d, data. split_and!; [done| |done].
        by intros d' ?%elem_of_nil.
      * intros (pre & d0 & post & Heq & Hpre & Hd0). destruct pre as [|d1 pre].
        { simplify_eq/=. congruence. }
        simplify_eq/=. specialize (Hpre d1 ltac:(left)). by rewrite Hd in Hpre.
    + rewrite IH. split.
      * intros (pre & d0 & post & -> & Hpre & Hd0).
        exists (d :: pre), d0, post. split_and!; [done| |done].
        intros d' [->|Hin]%elem_of_cons; [by rewrite Hd|by apply Hpre].
      * intros (pre & d0 & post & Heq & Hpre & Hd0). destruct pre as [|d1 pre].
        { simplify_eq/=. congruence. }
        simplify_eq/=. exists pre, d0, post. split_and!; [done| |done].
        intros d' Hin. apply Hpre. by right.
Qed.

(** X9: the thread-pool run retries nothing: [_process_dataset] raises [e]
    exactly when some data point's task raises [e] and the tasks of all data
    points submitted before it return; the lists those returned are lost.
    It returns only if the task of every data point returns. *)
Theorem first_failure_aborts_pool_run (data_points : list (list Datum)) :
  (∀ e, _process_dataset data_points = Raise e ↔
     ∃ pre d post, concat data_points = pre ++ d :: post ∧
       (∀ d', d' ∈ pre →
          is_return (parallel_task engine d' all_combinations) = true) ∧
       parallel_task engine d all_combinations = Raise e) ∧
  (∀ rs, _process_dataset data_points = Return rs →
     ∀ d, d ∈ concat data_points →
       is_return (parallel_task engine d all_combinations) = true).
Proof.
  split.
  - intros e. rewrite <-(executor_map_raises (concat data_points) ([], []) e).
    unfold _process_dataset. rewrite process_batches_flat.
    destruct (executor_map _ _); simpl;
      [split; by intros [= ->]|split; intros; discriminate].
  - intros rs Hret d Hin.
    destruct (parallel_task engine d all_combinations) as [e|res] eqn:Hd; [|done].
    apply list_elem_of_split in Hin as (pre & post & Heq).
    assert (Hraise : ∃ e', _process_dataset data_points = Raise e').
    { clear Hret. unfold _process_dataset. rewrite process_batches_flat, Heq.
      rewrite executor_map_app.
      destruct (executor_map pre _) as [e'|acc']; simpl; [by exists e'|].
      rewrite Hd. simpl. by exists e. }
    destruct Hraise as [e' He']. congruence.
Qed.

Lemma executor_map_updates (data : list Datum) acc rs ups :
  executor_map data acc = Return (rs, ups) →
  ∃ rs', rs = acc.1 ++ rs' ∧
    ups = acc.2 ++ ((λ _, length all_combinations) <$> data) ∧
    length rs' = length data * length all_combinations.
Proof.
  revert acc. induction data as [|d data IH]; intros acc Hmap; simpl in Hmap.
  - simplify_eq. exists []. by rewrite !app_nil_r.
  - destruct (parallel_task engine d all_combinations) as [e|res] eqn:Hd; [done|].
    simpl in Hmap. destruct (IH _ Hmap) as (rs' & -> & -> & Hlen). simpl.
    exists (res ++ rs'). rewrite <-!app_assoc.
    rewrite (run_single_input_length _ _ _ _ Hd). split_and!; [done..|].
    rewrite length_app, Hlen, (run_single_input_length _ _ _ _ Hd). lia.
Qed.

(** X10: when the thread-pool run goes through, its progress bars were
    advanced once per data point, each time by [|V|], the number of results
    of that data point; together the increments make the number of results
    returned, [|D| * |V|], the sum of the totals the bars were created
    with. *)
Theorem pool_bar_counts_results (data_points : list (list Datum)) rs ups :
  process_batches data_points ([], []) = Return (rs, ups) →
  _process_dataset data_points = Return rs ∧
  ups = (λ _, length all_combinations) <$> concat data_points ∧
  sum_list ups = length rs ∧
  length rs = sum_list ((λ data, length all_combinations * length data)
                          <$> data_points).
Proof.
  intros Hrun. split; [unfold _process_dataset; by rewrite Hrun|].
  rewrite process_batches_flat in Hrun.
  destruct (executor_map_updates _ _ _ _ Hrun) as (rs' & -> & -> & Hlen).
  simpl. split_and!; [done| |].
  - rewrite Hlen. clear. induction (concat data_points) as [|d ds IH]; [done|].
    rewrite fmap_cons. simpl. rewrite IH. lia.
  - rewrite Hlen. clear. induction data_points as [|data l IH]; [done|].
    rewrite fmap_cons. simpl. rewrite length_app, <-IH. lia.
Qed.

(** ** The workers of the pool *)













(** ** What [run] touches *)



End Runner.

(** * Scenarios *)

(** C2, on the code: the engine fails the first attempt of the only task with
    a failure that is not a throughput limit.  The handler prints the
    rate-limit message, the task sleeps 100 seconds inside the section and is
    attempted again; nothing is raised or recorded, and the results of the
    second attempt are returned. *)
Theorem nontransient_failure_retried :
  ∃ s,
    _aprocess_dataset (flaky_engine EvaluationFailure 1) wait_returns [0] [[0]]
      [Resume 0; Resume 0; Resume 0; Resume 0; Resume 0; Resume 0; Collect]
      = Some s ∧
    raised s = None ∧
    returned s = Some [mk_result 0 0 0 7%Z] ∧
    tasks s = [mk_task 0 (Done (Return (Some [mk_result 0 0 0 7%Z]))) 1] ∧
    trace s = [EvAcquire 0; EvRateWait 0; EvCall 0 0;
               EvPrint 0 "Rate limit exceeded, sleeping..."; EvSleep 0 100;
               EvRateWait 0; EvCall 0 1; EvRelease 0].
Proof. eexists. split_and!; vm_compute; reflexivity. Qed.

(** C5, on the code: two data points, one combination, every evaluation
    costs 7 tokens.  The task that completes first finds [results] empty and
    reports nothing; the one that completes after the first batch was merged
    reports its cost.  Two results were produced, one [add_tokens] call was
    made. *)
Theorem first_completion_reports_no_cost :
  ∃ s,
    _aprocess_dataset steady_engine wait_returns [0] [[0; 1]]
      [Resume 0; Resume 0; Resume 0; Collect;
       Resume 1; Resume 1; Resume 1; Collect] = Some s ∧
    returned s = Some [mk_result 0 0 0 7%Z; mk_result 1 0 1 7%Z] ∧
    trace s = [EvAcquire 0; EvRateWait 0; EvCall 0 0; EvRelease 0;
               EvAcquire 1; EvRateWait 1; EvCall 1 0; EvAddTokens 1 7;
               EvRelease 1] ∧
    tally is_add_tokens (trace s) = 1.
Proof. eexists. split_and!; vm_compute; reflexivity. Qed.

(** C1, on the code: one data point, no variation combination, an engine
    that never fails.  [|D| * |V|] is 0 and the thread pool returns the empty
    list; on the event loop [aparallel_task] leaves [None] in the only
    future, [results.extend(await future)] raises [TypeError], and no
    cooperative run returns a list. *)
Theorem no_result_list_without_combinations :
  (∀ d attempt c, is_return (steady_engine d attempt c) = true) ∧
  length (concat [[0]]) * length ([] : list nat) = 0 ∧
  _process_dataset steady_engine [] [[0]] = Return [] ∧
  (∃ s, _aprocess_dataset steady_engine wait_returns [] [[0]]
          [Resume 0; Resume 0; Resume 0; Collect] = Some s ∧
     tasks s = [mk_task 0 (Done (Return None)) 0] ∧
     raised s = Some TypeError ∧
     returned s = None) ∧
  ¬ ∃ acts s rs,
      _aprocess_dataset steady_engine wait_returns [] [[0]] acts = Some s ∧
      returned s = Some rs.
Proof.
  split_and!; [done|done|reflexivity| |].
  - eexists. split_and!; vm_compute; reflexivity.
  - intros (acts & s & rs & Hex & Hret). unfold _aprocess_dataset in Hex.
    assert (Hdata : concat [[0]] ≠ []) by done.
    pose proof (no_return_without_combinations steady_engine wait_returns []
                  _ _ [[0]] acts s eq_refl Hdata Hex) as Hno.
    congruence.
Qed.

(** C6, on the code: on the same input the two schedulers part.  The thread
    pool produces the empty collection, which covers the (empty) set of
    (datum, variation) keys; the cooperative scheduler produces no collection
    in any run, and the run that takes the only task through the section and
    merges its future has raised [TypeError]. *)
Theorem schedulers_differ_without_combinations :
  (∀ d attempt c, is_return (steady_engine d attempt c) = true) ∧
  (∃ rs_pool, _process_dataset steady_engine [] [[0]] = Return rs_pool ∧
     key <$> rs_pool = pairs [] [[0]]) ∧
  (∀ acts s, _aprocess_dataset steady_engine wait_returns [] [[0]] acts = Some s →
     returned s = None) ∧
  (∀ s, _aprocess_dataset steady_engine wait_returns [] [[0]]
          [Resume 0; Resume 0; Resume 0; Collect] = Some s →
     raised s = Some TypeError ∧ results s = []).
Proof.
  split_and!; [done| | |].
  - exists []. split; reflexivity.
  - intros acts s Hex. unfold _aprocess_dataset in Hex.
    assert (Hdata : concat [[0]] ≠ []) by done.
    apply (no_return_without_combinations steady_engine wait_returns []
             _ _ [[0]] acts s eq_refl Hdata Hex).
  - intros s Hex. vm_compute in Hex. injection Hex as <-.
    split; vm_compute; reflexivity.
Qed.

(** Scenario A: 3 data points in two batches, 2 combinations, no failure. *)
Lemma completeness_witness :
  ([0; 1] ≠ [] ∨ concat [[0; 1]; [2]] = []) ∧
  (∃ rs, _process_dataset steady_engine [0; 1] [[0; 1]; [2]] = Return rs ∧
     key <$> rs = pairs [0; 1] [[0; 1]; [2]] ∧ length rs = 6) ∧
  (∀ acts s, _aprocess_dataset steady_engine wait_returns [0; 1] [[0; 1]; [2]] acts
               = Some s →
     raised s = None ∧
     ∀ rs, returned s = Some rs →
       key <$> rs ≡ₚ pairs [0; 1] [[0; 1]; [2]] ∧ length rs = 6).
Proof.
  assert (Hv : [0; 1] ≠ [] ∨ concat [[0; 1]; [2]] = []) by (left; done).
  destruct (completeness steady_engine wait_returns [0; 1] (λ _, 0) [[0; 1]; [2]] Hv)
    as [Hcoop Hpool]; [reflexivity|reflexivity|].
  split_and!; [exact Hv|by apply Hpool|].
  intros acts s Hex. destruct (Hcoop acts s Hex) as (Hr & _ & _ & Hret). by split.
Defined.

Lemma scheduler_equivalence_witness :
  ∃ rs_pool,
    _process_dataset steady_engine [0; 1] [[0; 1]; [2]] = Return rs_pool ∧
    ∀ acts s rs,
      _aprocess_dataset steady_engine wait_returns [0; 1] [[0; 1]; [2]] acts = Some s →
      returned s = Some rs → key <$> rs ≡ₚ key <$> rs_pool.
Proof.
  destruct (scheduler_equivalence steady_engine wait_returns [0; 1] [[0; 1]; [2]])
    as (rs_pool & Hpool & _ & Heq); [left; done|reflexivity|reflexivity|].
  by exists rs_pool.
Defined.

(** No data point and no combination: [_aprocess_dataset] returns the empty
    list although [all_combinations] is empty. *)
Lemma empty_combinations_counterexample :
  ¬ ∀ acts s rs,
      _aprocess_dataset steady_engine wait_returns [] [] acts = Some s →
      returned s = Some rs → ([] : list nat) ≠ [].
Proof.
  intros Hclaim.
  by apply (Hclaim [] (mk_state 20 [] [] [] [] None [] []) []).
Qed.

Lemma empty_combinations_witness :
  (∃ acts s, _aprocess_dataset steady_engine wait_returns [] [[0]] acts = Some s ∧
     raised s = Some TypeError) ∧
  (∀ acts s rs,
     _aprocess_dataset steady_engine wait_returns [0; 1] [[0]] acts = Some s →
     returned s = Some rs → [0; 1] ≠ [] ∨ concat [[0]] = []).
Proof.
  split.
  - destruct (empty_combinations steady_engine wait_returns [] [[0]])
      as (_ & Hempty & _).
    destruct (Hempty eq_refl) as [_ Hraise]. by apply Hraise.
  - by destruct (empty_combinations steady_engine wait_returns [0; 1] [[0]])
      as (_ & _ & Hret).
Defined.


(** Two tasks inside the section, one of them past the rate limiter; a pool
    of two workers with both busy. *)
Lemma admission_bound_witness :
  (∃ s,
     _aprocess_dataset steady_engine wait_returns [0] [[0; 1; 2]]
       [Resume 0; Resume 1; Resume 0] = Some s ∧
     in_section s = 2 ∧ in_section s ≤ 20) ∧
  (∃ p,
     pool_exec steady_engine [0] 2 [0; 1; 0] (submit [0; 1; 2]) = Some p ∧
     sum_list_with busy (jobs p) = 2 ∧ sum_list_with busy (jobs p) ≤ 2 ∧
     worker steady_engine [0] 2 2 p = None).
Proof.
  destruct (admission_bound steady_engine wait_returns [0] 2 [[0; 1; 2]] [0; 1; 2])
    as [Hcoop Hpool].
  split.
  - destruct (_aprocess_dataset steady_engine _ _ _ _)
      as [s|] eqn:Hex; [|by vm_compute in Hex].
    destruct (Hcoop _ _ Hex) as [Hle _].
    exists s. vm_compute in Hex. injection Hex as <-.
    split_and!; [reflexivity|vm_compute; reflexivity|exact Hle].
  - destruct (pool_exec steady_engine _ _ _ _) as [p|] eqn:Hex; [|by vm_compute in Hex].
    destruct (Hpool _ _ Hex) as [Hle _].
    exists p. vm_compute in Hex. injection Hex as <-.
    split_and!; [reflexivity|vm_compute; reflexivity|exact Hle|vm_compute; reflexivity].
Defined.

(** One task finished, one raised out of the section by the rate limiter,
    one still inside. *)
Lemma slot_released_witness :
  ∃ s,
    _aprocess_dataset steady_engine
      (λ d _, if d =? 1 then Some ThroughputLimitExceeded else None) [0]
      [[0; 1; 2]]
      [Resume 0; Resume 1; Resume 2; Resume 1; Resume 0; Resume 0] = Some s ∧
    sem s = 19 ∧ in_section s = 1 ∧
    (is_done <$> tasks s) = [true; true; false] ∧
    (∀ i t, tasks s !! i = Some t → is_done t = true →
       holds_slot t = false ∧
       tally (is_acquire i) (trace s) = 1 ∧ tally (is_release i) (trace s) = 1).
Proof.
  destruct (_aprocess_dataset steady_engine _ _ _ _)
    as [s|] eqn:Hex; [|by vm_compute in Hex].
  pose proof (slot_released _ _ _ _ _ _ Hex) as (_ & Htask & _).
  exists s. vm_compute in Hex. injection Hex as <-.
  split_and!; [reflexivity|vm_compute; reflexivity..|].
  intros i t Ht Hdone. by apply (Htask i t Ht).
Defined.



(** * Scenarios of the further properties *)

(** Two data points, two combinations, run to the end: the bar stands at 2
    of 4. *)
Lemma progress_bar_counts_tasks_witness :
  ∃ s,
    _aprocess_dataset steady_engine wait_returns [0; 1] [[0; 1]]
      [Resume 0; Resume 0; Resume 0; Resume 1; Resume 1; Resume 1;
       Collect; Collect] = Some s ∧
    pbar s = [(1, 4); (2, 4)] ∧
    ∀ rs, returned s = Some rs → length (pbar s) = 2 ∧ length rs = 4.
Proof.
  destruct (_aprocess_dataset steady_engine _ _ _ _)
    as [s|] eqn:Hex; [|by vm_compute in Hex].
  pose proof (progress_bar_counts_tasks _ _ _ _ _ _ Hex) as (_ & _ & _ & Hret).
  exists s. vm_compute in Hex. injection Hex as <-.
  split_and!; [reflexivity|vm_compute; reflexivity|exact Hret].
Defined.

(** One failed attempt, the second call under way: two waits, one call. *)
Lemma rate_wait_before_every_call_witness :
  ∃ s,
    _aprocess_dataset (flaky_engine ThroughputLimitExceeded 1) wait_returns [0]
      [[0]] [Resume 0; Resume 0; Resume 0; Resume 0; Resume 0] = Some s ∧
    tally (is_rate_wait 0) (trace s) = 2 ∧
    tally (is_call 0) (trace s) = 1 ∧
    ∀ i t, tasks s !! i = Some t →
      tally (is_rate_wait i) (trace s) =
      tally (is_call i) (trace s) + (if is_calling t then 1 else 0).
Proof.
  destruct (_aprocess_dataset (flaky_engine ThroughputLimitExceeded 1) _ _ _ _)
    as [s|] eqn:Hex; [|by vm_compute in Hex].
  pose proof (rate_wait_before_every_call _ _ _ _ _ _ Hex) as Hrate.
  exists s. vm_compute in Hex. injection Hex as <-.
  split_and!; [reflexivity|vm_compute; reflexivity..|].
  intros i t Ht. by destruct (Hrate i t Ht).
Defined.

(** The second task returns after the first batch was merged and reports
    its 7 tokens; the first reported nothing. *)
Lemma cost_reported_at_most_once_witness :
  ∃ s,
    _aprocess_dataset steady_engine wait_returns [0] [[0; 1]]
      [Resume 0; Resume 0; Resume 0; Collect; Resume 1; Resume 1; Resume 1]
      = Some s ∧
    tokens_of 0 (trace s) = [] ∧
    tokens_of 1 (trace s) = [7%Z] ∧
    ∀ i t, tasks s !! i = Some t →
      tokens_of i (trace s) = [] ∨
      ∃ rs, at_pc t = Done (Return (Some rs)) ∧
        tokens_of i (trace s) = token_usage <$> rs.
Proof.
  destruct (_aprocess_dataset steady_engine _ _ _ _)
    as [s|] eqn:Hex; [|by vm_compute in Hex].
  pose proof (cost_reported_at_most_once _ _ _ _ _ _ Hex) as [Hcost _].
  exists s. vm_compute in Hex. injection Hex as <-.
  split_and!; [reflexivity|vm_compute; reflexivity..|exact Hcost].
Defined.

(** The second data point finishes first and comes first in the results. *)
Lemma results_in_completion_order_witness :
  ∃ s,
    _aprocess_dataset steady_engine wait_returns [0] [[0; 1]]
      [Resume 0; Resume 1; Resume 1; Resume 1; Resume 0; Resume 0;
       Collect; Collect] = Some s ∧
    released (trace s) = [1; 0] ∧
    results s = [mk_result 1 0 1 7%Z; mk_result 0 0 0 7%Z] ∧
    released (trace s) = consumed s ++ queue s.
Proof.
  destruct (_aprocess_dataset steady_engine _ _ _ _)
    as [s|] eqn:Hex; [|by vm_compute in Hex].
  pose proof (results_in_completion_order _ _ _ _ _ _ Hex) as [Hord _].
  exists s. vm_compute in Hex. injection Hex as <-.
  split_and!; [reflexivity|vm_compute; reflexivity..|exact Hord].
Defined.

(** The rate limiter raises for the second data point. *)
Lemma failed_future_aborts_run_witness :
  ∃ s s1,
    _aprocess_dataset steady_engine
      (λ d _, if d =? 1 then Some ThroughputLimitExceeded else None) [0]
      [[0; 1]] [Resume 0; Resume 1] = Some s ∧
    tasks s !! 1 = Some (mk_task 1 Waiting 0) ∧
    eval_fn_with_semaphore steady_engine
      (λ d _, if d =? 1 then Some ThroughputLimitExceeded else None) [0] 1 s
      = Some s1 ∧
    tasks s1 !! 1 = Some (mk_task 1 (Done (Raise ThroughputLimitExceeded)) 0) ∧
    sem s = 18 ∧ sem s1 = 19 ∧
    ∀ acts' s',
      _aprocess_dataset steady_engine
        (λ d _, if d =? 1 then Some ThroughputLimitExceeded else None) [0]
        [[0; 1]] ([Resume 0; Resume 1] ++ Resume 1 :: acts') = Some s' →
      returned s' = None.
Proof.
  destruct (_aprocess_dataset steady_engine _ _ _ [Resume 0; Resume 1])
    as [s|] eqn:Hex; [|by vm_compute in Hex].
  pose proof (failed_future_aborts_run _ _ _ _ _ _ 1 (mk_task 1 Waiting 0)
                ThroughputLimitExceeded Hex) as Habort.
  vm_compute in Hex. injection Hex as <-.
  destruct Habort as (s1 & Hs1 & Ht1 & Hsem1 & _ & _ & _ & Hnever);
    [reflexivity..|].
  eexists _, s1. split_and!; [reflexivity|reflexivity|exact Hs1| |reflexivity| |].
  - by rewrite Ht1.
  - by rewrite Hsem1.
  - intros acts' s' Hex'. by destruct (Hnever acts' s' Hex') as (_ & ? & _).
Defined.

(** An engine that fails every evaluation. *)
Lemma retries_without_bound_witness :
  (∀ acts s,
     _aprocess_dataset (λ _ _ _ : nat, Raise (A:=nat * Z) EvaluationFailure)
       wait_returns [0] [[0]] acts = Some s →
     raised s = None ∧ returned s = None) ∧
  ∃ acts s,
    _aprocess_dataset (λ _ _ _ : nat, Raise (A:=nat * Z) EvaluationFailure)
      wait_returns [0] [[0]] acts = Some s ∧ length acts = 100.
Proof.
  destruct (retries_without_bound
              (λ _ _ _ : nat, Raise (A:=nat * Z) EvaluationFailure)
              wait_returns [0] [[0]]) as [Hall Hlong]; [done..|].
  split.
  - intros acts s Hex. by destruct (Hall acts s Hex) as (? & ? & _).
  - apply Hlong.
Defined.

Lemma batches_do_not_matter_witness :
  _process_dataset steady_engine [0; 1] [[0]; [1; 2]] =
  _process_dataset steady_engine [0; 1] [[0; 1]; [2]] ∧
  ∀ acts,
    _aprocess_dataset steady_engine wait_returns [0; 1] [[0]; [1; 2]] acts =
    _aprocess_dataset steady_engine wait_returns [0; 1] [[0; 1]; [2]] acts.
Proof.
  apply (batches_do_not_matter steady_engine wait_returns [0; 1]). reflexivity.
Defined.

(** Three data points in two batches, two combinations. *)
Lemma pool_bar_counts_results_witness :
  ∃ rs ups,
    process_batches steady_engine [0; 1] [[0]; [1; 2]] ([], []) = Return (rs, ups) ∧
    ups = [2; 2; 2] ∧ sum_list ups = length rs ∧ length rs = 6.
Proof.
  destruct (process_batches steady_engine [0; 1] [[0]; [1; 2]] ([], []))
    as [e|[rs ups]] eqn:Hrun; [by vm_compute in Hrun|].
  destruct (pool_bar_counts_results _ _ _ _ _ Hrun) as (_ & Hups & Hsum & Hlen).
  exists rs, ups. split_and!; [reflexivity|exact Hups|exact Hsum|exact Hlen].
Defined.


